(** * smacpp: the symbolic value model and the trace-building traversal

    A shallow embedding of [src/parse/Variable.h] and
    [src/parse/CodeBlockBuildingVisitor.cpp], and the properties of the
    natural-language specification that concern them. *)

From Stdlib Require Import ZArith List String Bool Lia.
Import ListNotations.
Local Open Scope string_scope.
Local Open Scope list_scope.
Local Open Scope Z_scope.

Set Implicit Arguments.

(** ** Results of code that may throw *)

(** A C++ call either returns a value or throws a [std::exception] carrying
    its [what()] text. *)
Inductive Res (A : Type) : Type :=
| Ret (a : A)
| Throw (what : string).

Arguments Ret {A} a.
Arguments Throw {A} what.

Definition returns {A : Type} (r : Res A) : Prop := exists a, r = Ret a.
Definition throws {A : Type} (r : Res A) : Prop := exists w, r = Throw w.

(** ** Variable.h *)

(** [enum class COMPARISON]: an enumeration over its underlying [int]; the
    six enumerators take the values 0 to 5 in declaration order, and an
    object of the type can hold any other value of the underlying type. *)
Definition COMPARISON : Type := Z.

Definition LESS_THAN : COMPARISON := 0.
Definition LESS_THAN_EQUAL : COMPARISON := 1.
Definition GREATER_THAN : COMPARISON := 2.
Definition GREATER_THAN_EQUAL : COMPARISON := 3.
Definition NOT_EQUAL : COMPARISON := 4.
Definition EQUAL : COMPARISON := 5.

Definition enumerators : list COMPARISON :=
  [LESS_THAN; LESS_THAN_EQUAL; GREATER_THAN; GREATER_THAN_EQUAL; NOT_EQUAL; EQUAL].

Definition is_enumerator (op : COMPARISON) : Prop := In op enumerators.

(** [inline COMPARISON Negate(COMPARISON op)]: the [switch] with its
    throwing [default]. *)
Definition Negate (op : COMPARISON) : Res COMPARISON :=
  if op =? LESS_THAN then Ret GREATER_THAN_EQUAL
  else if op =? LESS_THAN_EQUAL then Ret GREATER_THAN
  else if op =? GREATER_THAN then Ret LESS_THAN_EQUAL
  else if op =? GREATER_THAN_EQUAL then Ret LESS_THAN
  else if op =? NOT_EQUAL then Ret EQUAL
  else if op =? EQUAL then Ret NOT_EQUAL
  else Throw "negate not implemented for this COMPARISON".

(** [inline const char* Dump(COMPARISON op)]. *)
Definition Dump (op : COMPARISON) : Res string :=
  if op =? LESS_THAN then Ret "<"
  else if op =? LESS_THAN_EQUAL then Ret "<="
  else if op =? GREATER_THAN then Ret ">"
  else if op =? GREATER_THAN_EQUAL then Ret ">="
  else if op =? NOT_EQUAL then Ret "!="
  else if op =? EQUAL then Ret "=="
  else Throw "dump not implemented for this COMPARISON".

(** [struct VariableIdentifier]: identity is the name. *)
Record VariableIdentifier : Type := mkVariableIdentifier { Name : string }.

Definition VariableIdentifier_eqb (a b : VariableIdentifier) : bool :=
  String.eqb (Name a) (Name b).

(** [struct BufferInfo]: the two member initialisers [NullPtr = false] and
    [AllocatedSize = 0] and the two constructors.  [size_t] is an unsigned
    64-bit integer, held as its value in [Z]. *)
Record BufferInfo : Type := mkBufferInfo { NullPtr : bool; AllocatedSize : Z }.

(** [BufferInfo(std::nullptr_t) : NullPtr(true) {}] *)
Definition BufferInfo_nullptr : BufferInfo :=
  {| NullPtr := true; AllocatedSize := 0 |}.

(** [BufferInfo(size_t size) : AllocatedSize(size) {}] *)
Definition BufferInfo_size (size : Z) : BufferInfo :=
  {| NullPtr := false; AllocatedSize := size |}.

Definition BufferInfo_eqb (a b : BufferInfo) : bool :=
  Bool.eqb (NullPtr a) (NullPtr b) && (AllocatedSize a =? AllocatedSize b).

(** The objects the public constructors can build. *)
Inductive constructed : BufferInfo -> Prop :=
| constructed_nullptr : constructed BufferInfo_nullptr
| constructed_size (size : Z) : 0 <= size < 2 ^ 64 -> constructed (BufferInfo_size size).

(** A buffer is sized when it records a non-zero allocation. *)
Definition sized (b : BufferInfo) : Prop := AllocatedSize b <> 0.

(** [struct PrimitiveInfo]: [std::variant<bool, Integer, double>] with
    [Integer = long long]; a [double] is held as its 64-bit pattern.  The
    header declares the one constructor from [Integer]. *)
Inductive PrimitiveValue : Type :=
| PBool (b : bool)
| PInteger (i : Z)
| PDouble (bits : Z).

Record PrimitiveInfo : Type := mkPrimitiveInfo { PValue : PrimitiveValue }.

Definition PrimitiveInfo_Integer (intValue : Z) : PrimitiveInfo :=
  {| PValue := PInteger intValue |}.

(** [struct VarCopyInfo] *)
Record VarCopyInfo : Type := mkVarCopyInfo { Source : VariableIdentifier }.

(** [class VariableState]: the tag and the variant next to it. *)
Inductive STATE : Type := Unknown | Primitive | Buffer | CopyVar.

Inductive StateValue : Type :=
| monostate
| VBufferInfo (b : BufferInfo)
| VPrimitiveInfo (p : PrimitiveInfo)
| VVarCopyInfo (c : VarCopyInfo).

Record VariableState : Type := mkVariableState { State : STATE; Value : StateValue }.

(** A default-constructed [VariableState]. *)
Definition VariableState_default : VariableState :=
  {| State := Unknown; Value := monostate |}.

(** The three [Set] overloads; each overwrites both members. *)
Definition Set_Buffer (buffer : BufferInfo) (_ : VariableState) : VariableState :=
  {| State := Buffer; Value := VBufferInfo buffer |}.

Definition Set_CopyVar (copyInfo : VarCopyInfo) (_ : VariableState) : VariableState :=
  {| State := CopyVar; Value := VVarCopyInfo copyInfo |}.

Definition Set_Primitive (primitive : PrimitiveInfo) (_ : VariableState) : VariableState :=
  {| State := Primitive; Value := VPrimitiveInfo primitive |}.

(** The states as the specification writes them. *)
Definition StUnknown : VariableState := VariableState_default.
Definition StPrimitive (n : Z) : VariableState :=
  Set_Primitive (PrimitiveInfo_Integer n) VariableState_default.
Definition StBuffer (size : Z) : VariableState :=
  Set_Buffer (BufferInfo_size size) VariableState_default.
Definition StCopyVar (source : VariableIdentifier) : VariableState :=
  Set_CopyVar (mkVarCopyInfo source) VariableState_default.

(** ** The syntax tree handed over by the front end

    The traversal consumes a Clang syntax tree.  The classes below are the
    ones the traversal code names or walks through by default; every node
    carries what the code reads from it. *)

Definition SourceLocation : Type := Z.

(** [llvm::APInt]: a bit width and the unsigned value of the bits. *)
Record APInt : Type := mkAPInt { BitWidth : Z; UValue : Z }.

(** [APInt::getSExtValue]: the bits read as a two's complement number of
    [BitWidth] bits, for the widths of at most 64 bits the code supports. *)
Definition getSExtValue (v : APInt) : Z :=
  if Z.testbit (UValue v) (BitWidth v - 1)
  then UValue v mod 2 ^ BitWidth v - 2 ^ BitWidth v
  else UValue v mod 2 ^ BitWidth v.

(** What a [DeclRefExpr] refers to: a [VarDecl] (a [ParmVarDecl] is one) with
    its qualified name, or a declaration of another class. *)
Inductive ValueDecl : Type :=
| RefVarDecl (qualifiedName : string)
| RefOtherDecl (qualifiedName : string).

Inductive BinaryOperatorKind : Type :=
| BO_Mul | BO_Div | BO_Add | BO_Sub | BO_LT | BO_GT | BO_LE | BO_GE
| BO_EQ | BO_NE | BO_LAnd | BO_LOr | BO_Assign | BO_AddAssign | BO_Comma.

Inductive UnaryOperatorKind : Type :=
| UO_Minus | UO_Not | UO_LNot | UO_Deref | UO_AddrOf | UO_PreInc | UO_PostInc.

(** Induction over a tree whose nodes hold lists and optional children needs
    the predicate to hold of each of them. *)
Scheme All for list.
Scheme All for option.

(** [clang::Stmt] and its subclasses ([clang::Expr] is one of them).  A
    pointer that may be null is an [option].  A [DeclStmt] declares one
    variable; a [CallExpr] records what [getDirectCallee] answers, the
    qualified name of the called function when the callee is one.  An
    [ArraySubscriptExpr] is in the form [base[index]]: [getLHS] is [lhs] and
    [getIdx] is [rhs]. *)
Inductive Stmt : Type :=
| CompoundStmt (body : list Stmt)
| DeclStmt (loc : SourceLocation) (name type : string) (init : option Stmt)
| IfStmt (cond then_ : Stmt) (else_ : option Stmt)
| WhileStmt (cond body : Stmt)
| ReturnStmt (value : option Stmt)
| IntegerLiteral (value : APInt)
| StringLiteral (bytes : string)
| DeclRefExpr (decl : ValueDecl)
| ImplicitCastExpr (sub : Stmt)
| ParenExpr (sub : Stmt)
| UnaryOperator (opc : UnaryOperatorKind) (sub : Stmt)
| BinaryOperator (loc : SourceLocation) (opc : BinaryOperatorKind) (lhs rhs : Stmt)
| ArraySubscriptExpr (loc : SourceLocation) (lhs rhs : Stmt)
| CallExpr (loc : SourceLocation) (directCallee : option string)
           (callee : Stmt) (args : list Stmt).

(** [clang::VarDecl]; [IsParm] tells a [ParmVarDecl]. *)
Record VarDecl : Type := mkVarDecl {
  VarLoc : SourceLocation;
  VarQualifiedName : string;
  VarType : string;
  IsParm : bool;
  getAnyInitializer : option Stmt }.

(** [clang::FunctionDecl]: a declaration is a definition when it has a
    body. *)
Record FunctionDecl : Type := mkFunctionDecl {
  FunLoc : SourceLocation;
  FunQualifiedName : string;
  parameters : list VarDecl;
  getBody : option Stmt }.

(** [StringLiteral::getByteLength]: the number of bytes of the literal's
    content; the terminator is not part of it. *)
Definition getByteLength (bytes : string) : Z := Z.of_nat (String.length bytes).

(** Modelled from the spec: the body of the constructor
    [VariableIdentifier(clang::VarDecl* var)] is not among the sources; a
    variable is identified by its name. *)
Definition VariableIdentifier_of (qualifiedName : string) : VariableIdentifier :=
  {| Name := qualifiedName |}.

(** ** RecursiveASTVisitor

    A traversal step either goes on ([true]) or aborts the whole traversal
    ([false]), and updates the visitor's members. *)
Definition Visit (S : Type) : Type := S -> bool * S.

Definition go_on {S : Type} : Visit S := fun st => (true, st).

(** [TRY_TO(a); b] *)
Definition andThen {S : Type} (a b : Visit S) : Visit S :=
  fun st => let (ok, st') := a st in if ok then b st' else (false, st').

Notation "a ;;; b" := (andThen a b) (at level 61, right associativity).

Section RecursiveASTVisitor.

(** The members of the derived visitor. *)
Context {S : Type}.

(** The [Visit...] methods of the derived class that [WalkUpFrom...]
    reaches on a node, and its [Traverse...] methods that replace the
    default ones. *)
Variable WalkUpFrom : Stmt -> Visit S.
Variable TraverseOverride : Stmt -> option (Visit S).

(** [TraverseStmt]: pre-order; a null statement is skipped. *)
Fixpoint TraverseStmt (s : Stmt) : Visit S :=
  match TraverseOverride s with
  | Some traverse => traverse
  | None =>
    WalkUpFrom s ;;;
    match s with
    | CompoundStmt body =>
        (fix children (l : list Stmt) : Visit S :=
           match l with
           | [] => go_on
           | c :: r => TraverseStmt c ;;; children r
           end) body
    | DeclStmt _ _ _ init =>
        match init with Some e => TraverseStmt e | None => go_on end
    | IfStmt cond then_ else_ =>
        TraverseStmt cond ;;; TraverseStmt then_ ;;;
        match else_ with Some e => TraverseStmt e | None => go_on end
    | WhileStmt cond body => TraverseStmt cond ;;; TraverseStmt body
    | ReturnStmt value =>
        match value with Some e => TraverseStmt e | None => go_on end
    | IntegerLiteral _ | StringLiteral _ | DeclRefExpr _ => go_on
    | ImplicitCastExpr sub | ParenExpr sub | UnaryOperator _ sub => TraverseStmt sub
    | BinaryOperator _ _ lhs rhs => TraverseStmt lhs ;;; TraverseStmt rhs
    | ArraySubscriptExpr _ lhs rhs => TraverseStmt lhs ;;; TraverseStmt rhs
    | CallExpr _ _ callee args =>
        TraverseStmt callee ;;;
        (fix children (l : list Stmt) : Visit S :=
           match l with
           | [] => go_on
           | c :: r => TraverseStmt c ;;; children r
           end) args
    end
  end.

End RecursiveASTVisitor.

(** ** CodeBlockBuildingVisitor::VariableRefOrArrayVisitor *)

Record VariableRefOrArrayVisitor : Type := mkVariableRefOrArrayVisitor {
  FoundVar : option VariableIdentifier;
  LikelyFullVariableAssign : bool }.

Definition VariableRefOrArrayVisitor_new : VariableRefOrArrayVisitor :=
  {| FoundVar := None; LikelyFullVariableAssign := true |}.

Definition VisitDeclRefExpr (decl : ValueDecl) : Visit VariableRefOrArrayVisitor :=
  fun v =>
    match decl with
    | RefVarDecl name =>
        let ident := VariableIdentifier_of name in
        if LikelyFullVariableAssign v
        then (true, {| FoundVar := Some ident;
                       LikelyFullVariableAssign := LikelyFullVariableAssign v |})
        else (true, v)
    | RefOtherDecl _ => (true, v)
    end.

Definition RefOrArray_VisitArraySubscriptExpr : Visit VariableRefOrArrayVisitor :=
  fun v => (true, {| FoundVar := FoundVar v; LikelyFullVariableAssign := false |}).

Definition RefOrArray_WalkUpFrom (s : Stmt) : Visit VariableRefOrArrayVisitor :=
  match s with
  | DeclRefExpr decl => VisitDeclRefExpr decl
  | ArraySubscriptExpr _ _ _ => RefOrArray_VisitArraySubscriptExpr
  | _ => go_on
  end.

Definition RefOrArray_TraverseStmt : Stmt -> Visit VariableRefOrArrayVisitor :=
  TraverseStmt RefOrArray_WalkUpFrom (fun _ => None).

(** [VariableRefOrArrayVisitor v(Debug); v.TraverseStmt(e); v.FoundVar] *)
Definition find_var (e : Stmt) : option VariableIdentifier :=
  FoundVar (snd (RefOrArray_TraverseStmt e VariableRefOrArrayVisitor_new)).

(** ** CodeBlockBuildingVisitor::VariableStateFindVisitor *)

Record VariableStateFindVisitor : Type := mkVariableStateFindVisitor {
  FoundValue : option VariableState }.

Definition VariableStateFindVisitor_new : VariableStateFindVisitor :=
  {| FoundValue := None |}.

Definition TraverseIntegerLiteral (value : APInt) : Visit VariableStateFindVisitor :=
  fun _ =>
    let state := Set_Primitive (PrimitiveInfo_Integer (getSExtValue value))
                               VariableState_default in
    (false, {| FoundValue := Some state |}).

Definition StateFind_TraverseOverride (s : Stmt) : option (Visit VariableStateFindVisitor) :=
  match s with
  | IntegerLiteral value => Some (TraverseIntegerLiteral value)
  | _ => None
  end.

Definition StateFind_TraverseStmt : Stmt -> Visit VariableStateFindVisitor :=
  TraverseStmt (fun _ => go_on) StateFind_TraverseOverride.

(** [VariableStateFindVisitor v; v.TraverseStmt(arg); v.FoundValue] *)
Definition find_value (arg : Stmt) : option VariableState :=
  FoundValue (snd (StateFind_TraverseStmt arg VariableStateFindVisitor_new)).

(** ** The path condition

    [Condition.h] is not among the sources: the traversal is stated over
    any implementation of the operations it calls. *)
Class ConditionOps : Type := {
  Condition : Type;
  (** [Condition(clang::Stmt* stmt)], which throws on a guard it cannot model *)
  Condition_of : Stmt -> Res Condition;
  (** [Condition::Negate], called inside the same [try] block *)
  Condition_Negate : Condition -> Res Condition;
  Condition_And : Condition -> Condition -> Condition;
  IsAlwaysTrue : Condition -> bool;
  (** [ValueVisitBase::GetCurrentCondition], which [FunctionVisitor]
      inherits: the condition at the top level of a function body *)
  BaseCurrentCondition : Condition }.

Section Traversal.

Context {ops : ConditionOps}.

(** ** ProcessedAction.h and CodeBlock: the trace *)

(** The four [action::] classes, each built from the condition in effect
    and its payload. *)
Inductive ProcessedAction : Type :=
| VarDeclared (cond : Condition) (var : VariableIdentifier) (state : VariableState)
| VarAssigned (cond : Condition) (var : VariableIdentifier) (state : VariableState)
| ArrayIndexAccess (cond : Condition) (array : VariableIdentifier) (index : VariableState)
| FunctionCall (cond : Condition) (function : string) (params : list VariableState).

(** Modelled from the spec: [CodeBlock] is declared in a header that is
    not among the sources.  A block holds the function's name and
    declaration location, the ordered parameters and the ordered actions,
    each action with its source location. *)
Record CodeBlock : Type := mkCodeBlock {
  BlockName : string;
  BlockLocation : SourceLocation;
  Parameters : list VariableIdentifier;
  Actions : list (ProcessedAction * SourceLocation) }.

Definition CodeBlock_new (name : string) (loc : SourceLocation) : CodeBlock :=
  {| BlockName := name; BlockLocation := loc; Parameters := []; Actions := [] |}.

Definition AddProcessedAction (action : ProcessedAction) (loc : SourceLocation)
    (Target : CodeBlock) : CodeBlock :=
  {| BlockName := BlockName Target; BlockLocation := BlockLocation Target;
     Parameters := Parameters Target;
     Actions := Actions Target ++ [(action, loc)] |}.

Definition AddFunctionParameter (ident : VariableIdentifier) (Target : CodeBlock) : CodeBlock :=
  {| BlockName := BlockName Target; BlockLocation := BlockLocation Target;
     Parameters := Parameters Target ++ [ident];
     Actions := Actions Target |}.

(** ** CodeBlockBuildingVisitor::ValueVisitBase

    The members [Context] and [Debug] are read only; the member [Target]
    is the block the visitor writes to, and [current] is what
    [GetCurrentCondition()] returns for the visitor at hand.  The text the
    code writes to [llvm::outs()] is left out. *)

Definition VisitVarDecl (current : Condition) (var : VarDecl) : Visit CodeBlock :=
  fun Target =>
    let fullLocation := VarLoc var in
    if IsParm var then (true, Target)
    else
      let state :=
        match getAnyInitializer var with
        | Some (StringLiteral bytes) =>
            Set_Buffer (BufferInfo_size (getByteLength bytes)) VariableState_default
        | Some _ => VariableState_default
        | None => VariableState_default
        end in
      (true, AddProcessedAction
               (VarDeclared current (VariableIdentifier_of (VarQualifiedName var)) state)
               fullLocation Target).

Definition VisitArraySubscriptExpr (current : Condition) (loc : SourceLocation)
    (lhs idx : Stmt) : Visit CodeBlock :=
  fun Target =>
    match find_var lhs with
    | None => (true, Target)
    | Some found =>
        let indexValue :=
          match idx with
          | IntegerLiteral literal =>
              Set_Primitive (PrimitiveInfo_Integer (getSExtValue literal))
                            VariableState_default
          | _ => VariableState_default
          end in
        match State indexValue with
        | Unknown => (true, Target)
        | _ => (true, AddProcessedAction (ArrayIndexAccess current found indexValue)
                        loc Target)
        end
    end.

Definition VisitBinaryOperator (current : Condition) (loc : SourceLocation)
    (opc : BinaryOperatorKind) (lhs rhs : Stmt) : Visit CodeBlock :=
  fun Target =>
    match opc with
    | BO_Assign =>
        match find_var lhs, find_var rhs with
        | Some target, Some source =>
            let state := Set_CopyVar (mkVarCopyInfo source) VariableState_default in
            (true, AddProcessedAction (VarAssigned current target state) loc Target)
        | _, _ => (true, Target)
        end
    | _ => (true, Target)
    end.

(** The loop over the arguments of a call. *)
Definition callParams (args : list Stmt) : list VariableState :=
  map (fun arg => match find_value arg with
                  | Some found => found
                  | None => VariableState_default
                  end) args.

Definition TraverseCallExpr (current : Condition) (loc : SourceLocation)
    (directCallee : option string) (args : list Stmt) : Visit CodeBlock :=
  fun Target =>
    match directCallee with
    | None => (true, Target)
    | Some functionName =>
        (true, AddProcessedAction (FunctionCall current functionName (callParams args))
                 loc Target)
    end.

(** The [try] block of [TraverseIfStmt]. *)
Definition parse_guard (cond : Stmt) : Res (Condition * Condition) :=
  match Condition_of cond with
  | Throw what => Throw what
  | Ret condition =>
      match Condition_Negate condition with
      | Throw what => Throw what
      | Ret negated => Ret (condition, negated)
      end
  end.

(** [TraverseIfStmt], given what [TraverseStmt] of a
    [ConditionalContentVisitor] built on a condition does; the result of
    that call is dropped. *)
Definition TraverseIfStmt
    (ConditionalContentVisitor : Condition -> Stmt -> Visit CodeBlock)
    (current : Condition) (cond then_ : Stmt) (else_ : option Stmt) : Visit CodeBlock :=
  fun Target =>
    match parse_guard cond with
    | Throw _ => (true, Target)
    | Ret (condition, negated) =>
        let Target1 :=
          if negb (IsAlwaysTrue negated)
          then snd (ConditionalContentVisitor (Condition_And current condition)
                      then_ Target)
          else Target in
        let Target2 :=
          if negb (IsAlwaysTrue condition)
          then match else_ with
               | Some e => snd (ConditionalContentVisitor
                                  (Condition_And current negated) e Target1)
               | None => Target1
               end
          else Target1 in
        (true, Target2)
    end.

(** [TraverseStmt] of a [FunctionVisitor] or a [ConditionalContentVisitor]
    whose [GetCurrentCondition()] is [current]: the default pre-order
    traversal with the five methods of [VALUE_VISITOR_VISIT_TYPES]. *)
Fixpoint Value_TraverseStmt (current : Condition) (s : Stmt) : Visit CodeBlock :=
  match s with
  | CompoundStmt body =>
      (fix children (l : list Stmt) : Visit CodeBlock :=
         match l with
         | [] => go_on
         | c :: r => Value_TraverseStmt current c ;;; children r
         end) body
  | DeclStmt loc name type init =>
      VisitVarDecl current (mkVarDecl loc name type false init) ;;;
      match init with Some e => Value_TraverseStmt current e | None => go_on end
  | IfStmt cond then_ else_ =>
      TraverseIfStmt (fun c b => Value_TraverseStmt c b) current cond then_ else_
  | WhileStmt cond body =>
      Value_TraverseStmt current cond ;;; Value_TraverseStmt current body
  | ReturnStmt value =>
      match value with Some e => Value_TraverseStmt current e | None => go_on end
  | IntegerLiteral _ | StringLiteral _ | DeclRefExpr _ => go_on
  | ImplicitCastExpr sub | ParenExpr sub | UnaryOperator _ sub =>
      Value_TraverseStmt current sub
  | BinaryOperator loc opc lhs rhs =>
      VisitBinaryOperator current loc opc lhs rhs ;;;
      Value_TraverseStmt current lhs ;;; Value_TraverseStmt current rhs
  | ArraySubscriptExpr loc lhs rhs =>
      VisitArraySubscriptExpr current loc lhs rhs ;;;
      Value_TraverseStmt current lhs ;;; Value_TraverseStmt current rhs
  | CallExpr loc directCallee _ args =>
      TraverseCallExpr current loc directCallee args
  end.

(** The children of a [CompoundStmt], one after the other. *)
Fixpoint Value_TraverseStmts (current : Condition) (l : list Stmt) : Visit CodeBlock :=
  match l with
  | [] => go_on
  | c :: r => Value_TraverseStmt current c ;;; Value_TraverseStmts current r
  end.

(** ** CodeBlockBuildingVisitor::FunctionVisitor *)

Definition VisitParmVarDecl (var : VarDecl) : Visit CodeBlock :=
  fun Target =>
    (true, AddFunctionParameter (VariableIdentifier_of (VarQualifiedName var)) Target).

(** [TraverseDecl] of a parameter: [WalkUpFromParmVarDecl] reaches
    [VisitVarDecl], then [VisitParmVarDecl]. *)
Definition TraverseParmVarDecl (var : VarDecl) : Visit CodeBlock :=
  VisitVarDecl BaseCurrentCondition var ;;; VisitParmVarDecl var.

Fixpoint TraverseParameters (l : list VarDecl) : Visit CodeBlock :=
  match l with
  | [] => go_on
  | p :: r => TraverseParmVarDecl p ;;; TraverseParameters r
  end.

(** [FunctionVisitor::TraverseDecl] on a function: its parameters, then
    its body when the declaration is a definition. *)
Definition FunctionVisitor_TraverseDecl (fun_ : FunctionDecl) : Visit CodeBlock :=
  TraverseParameters (parameters fun_) ;;;
  match getBody fun_ with
  | Some body => Value_TraverseStmt BaseCurrentCondition body
  | None => go_on
  end.

(** ** CodeBlockBuildingVisitor

    [analysis/BlockRegistry.h] is not among the sources: the registry is
    any type with an [AddBlock]. *)
Section Registry.

Variable BlockRegistry : Type.
Variable AddBlock : CodeBlock -> BlockRegistry -> BlockRegistry.

(** The block [TraverseFunctionDecl] completes for a declaration. *)
Definition build_block (fun_ : FunctionDecl) : CodeBlock :=
  let block := CodeBlock_new (FunQualifiedName fun_) (FunLoc fun_) in
  snd (FunctionVisitor_TraverseDecl fun_ block).

Definition TraverseFunctionDecl (fun_ : FunctionDecl) : Visit BlockRegistry :=
  fun Registry => (true, AddBlock (build_block fun_) Registry).

(** The function declarations of a translation unit, in order. *)
Fixpoint TraverseTranslationUnit (decls : list FunctionDecl) : Visit BlockRegistry :=
  match decls with
  | [] => go_on
  | d :: r => TraverseFunctionDecl d ;;; TraverseTranslationUnit r
  end.

End Registry.

End Traversal.

(** ** The shapes the specification speaks of *)

(** The nodes of a tree in the order the default traversal reaches them. *)
Fixpoint preorder (s : Stmt) : list Stmt :=
  s ::
  match s with
  | CompoundStmt body => flat_map preorder body
  | DeclStmt _ _ _ init => match init with Some e => preorder e | None => [] end
  | IfStmt cond then_ else_ =>
      preorder cond ++ preorder then_ ++
      match else_ with Some e => preorder e | None => [] end
  | WhileStmt cond body => preorder cond ++ preorder body
  | ReturnStmt value => match value with Some e => preorder e | None => [] end
  | IntegerLiteral _ | StringLiteral _ | DeclRefExpr _ => []
  | ImplicitCastExpr sub | ParenExpr sub | UnaryOperator _ sub => preorder sub
  | BinaryOperator _ _ lhs rhs => preorder lhs ++ preorder rhs
  | ArraySubscriptExpr _ lhs rhs => preorder lhs ++ preorder rhs
  | CallExpr _ _ callee args => preorder callee ++ flat_map preorder args
  end.

(** The nodes that come before the first subscript expression. *)
Fixpoint before_subscript (l : list Stmt) : list Stmt :=
  match l with
  | [] => []
  | ArraySubscriptExpr _ _ _ :: _ => []
  | n :: r => n :: before_subscript r
  end.

(** The last reference to a variable among some nodes, [acc] when there is
    none. *)
Fixpoint last_variable (l : list Stmt) (acc : option VariableIdentifier)
    : option VariableIdentifier :=
  match l with
  | [] => acc
  | DeclRefExpr (RefVarDecl name) :: r => last_variable r (Some (VariableIdentifier_of name))
  | _ :: r => last_variable r acc
  end.

(** The variable an expression is taken to stand for: the last variable
    referenced before any subscript expression is met. *)
Definition whole_variable_candidate (e : Stmt) : option VariableIdentifier :=
  last_variable (before_subscript (preorder e)) None.

(** The first integer literal among some nodes. *)
Fixpoint first_integer_literal (l : list Stmt) : option APInt :=
  match l with
  | [] => None
  | IntegerLiteral value :: _ => Some value
  | _ :: r => first_integer_literal r
  end.

(** The state a call argument is given: the first integer literal of its
    tree, when it has one. *)
Definition argument_state (arg : Stmt) : VariableState :=
  match first_integer_literal (preorder arg) with
  | Some value => StPrimitive (getSExtValue value)
  | None => StUnknown
  end.

(** A bare variable reference in the specification's sense: a reference to
    a variable and nothing else, up to the implicit conversions and
    parentheses around it. *)
Fixpoint bare_variable (e : Stmt) : option VariableIdentifier :=
  match e with
  | DeclRefExpr (RefVarDecl name) => Some (VariableIdentifier_of name)
  | ImplicitCastExpr sub | ParenExpr sub => bare_variable sub
  | _ => None
  end.

(** A bare integer literal in the specification's sense. *)
Definition bare_integer_literal (e : Stmt) : option APInt :=
  match e with
  | IntegerLiteral value => Some value
  | _ => None
  end.

(** ** Sample programs *)

(** An [int] literal. *)
Definition int_literal (n : Z) : Stmt := IntegerLiteral (mkAPInt 32 n).

(** A use of the value of variable [name]: the reference under the
    lvalue-to-rvalue conversion. *)
Definition rvalue (name : string) : Stmt := ImplicitCastExpr (DeclRefExpr (RefVarDecl name)).

(** A reference to variable [name] as an lvalue. *)
Definition lvalue (name : string) : Stmt := DeclRefExpr (RefVarDecl name).

(** The callee of a direct call to function [name]. *)
Definition callee_of (name : string) : Stmt :=
  ImplicitCastExpr (DeclRefExpr (RefOtherDecl name)).

(** [a = b;] *)
Definition assign_a_b : Stmt := BinaryOperator 0 BO_Assign (lvalue "a") (rvalue "b").
(** [a = 5;] *)
Definition assign_a_5 : Stmt := BinaryOperator 0 BO_Assign (lvalue "a") (int_literal 5).
(** [a[0] = b;] *)
Definition assign_a0_b : Stmt :=
  BinaryOperator 0 BO_Assign (ArraySubscriptExpr 0 (rvalue "a") (int_literal 0)) (rvalue "b").
(** [a = b + c;] *)
Definition assign_a_b_plus_c : Stmt :=
  BinaryOperator 0 BO_Assign (lvalue "a") (BinaryOperator 0 BO_Add (rvalue "b") (rvalue "c")).

(** [foo(3, x);] *)
Definition call_foo_3_x : Stmt :=
  CallExpr 0 (Some "foo") (callee_of "foo") [int_literal 3; rvalue "x"].
(** [foo(x + 3);] *)
Definition call_foo_x_plus_3 : Stmt :=
  CallExpr 0 (Some "foo") (callee_of "foo")
    [BinaryOperator 0 BO_Add (rvalue "x") (int_literal 3)].

(** [buf[3];] *)
Definition subscript_buf_3 : Stmt := ArraySubscriptExpr 0 (rvalue "buf") (int_literal 3).
(** [buf[i];] *)
Definition subscript_buf_i : Stmt := ArraySubscriptExpr 0 (rvalue "buf") (rvalue "i").
(** [a[b[0]];] *)
Definition subscript_a_b0 : Stmt :=
  ArraySubscriptExpr 0 (rvalue "a")
    (ImplicitCastExpr (ArraySubscriptExpr 0 (rvalue "b") (int_literal 0))).
(** [(p + q)[3];] *)
Definition subscript_p_plus_q_3 : Stmt :=
  ArraySubscriptExpr 0
    (ParenExpr (BinaryOperator 0 BO_Add (rvalue "p") (rvalue "q"))) (int_literal 3).

(** [char s[] = "hi";]: the literal itself initialises the array. *)
Definition decl_array_s_hi : VarDecl :=
  mkVarDecl 0 "s" "char[3]" false (Some (StringLiteral "hi")).
(** [char* s = "hi";]: the initializer is the implicit array-to-pointer
    conversion of the literal. *)
Definition decl_pointer_s_hi : VarDecl :=
  mkVarDecl 0 "s" "char *" false (Some (ImplicitCastExpr (StringLiteral "hi"))).

(** Modelled from the spec: an implementation of the operations of
    [Condition.h], which is not among the sources, to run the traversal on
    sample programs.  A guard is modelled when it is an integer literal or
    the value of a variable; a condition is a conjunction of guards, each
    taken as it is or negated. *)
Inductive SampleGuard : Type :=
| GConstant (nonzero : bool)
| GVariable (name : string) (nonzero : bool).

Definition SampleCondition : Type := list SampleGuard.

Definition Sample_of (guard : Stmt) : Res SampleCondition :=
  match guard with
  | IntegerLiteral value => Ret [GConstant (negb (getSExtValue value =? 0))]
  | ImplicitCastExpr (DeclRefExpr (RefVarDecl name)) => Ret [GVariable name true]
  | _ => Throw "unsupported guard"
  end.

Definition Sample_Negate (c : SampleCondition) : Res SampleCondition :=
  match c with
  | [GConstant nonzero] => Ret [GConstant (negb nonzero)]
  | [GVariable name nonzero] => Ret [GVariable name (negb nonzero)]
  | _ => Throw "cannot negate"
  end.

Definition Sample_IsAlwaysTrue (c : SampleCondition) : bool :=
  forallb (fun g => match g with GConstant nonzero => nonzero | GVariable _ _ => false end) c.

#[global] Instance SampleOps : ConditionOps := {|
  Condition := SampleCondition;
  Condition_of := Sample_of;
  Condition_Negate := Sample_Negate;
  Condition_And := @app SampleGuard;
  IsAlwaysTrue := Sample_IsAlwaysTrue;
  BaseCurrentCondition := [] |}.

(** [if (1) { a = b; } else { c = d; }], [if (0) ...] with the same arms,
    and [if (f()) ...], whose guard the sample conditions do not model. *)
Definition then_arm : Stmt := CompoundStmt [assign_a_b].
Definition else_arm : Stmt :=
  CompoundStmt [BinaryOperator 0 BO_Assign (lvalue "c") (rvalue "d")].
Definition if_true : Stmt := IfStmt (int_literal 1) then_arm (Some else_arm).
Definition if_false : Stmt := IfStmt (int_literal 0) then_arm (Some else_arm).
Definition if_call : Stmt :=
  IfStmt (CallExpr 0 (Some "f") (callee_of "f") []) then_arm (Some else_arm).

(** [void f(int n);] and [void f(int n) { foo(3, x); }] *)
Definition f_declared : FunctionDecl :=
  mkFunctionDecl 1 "f" [mkVarDecl 1 "n" "int" true None] None.
Definition f_defined : FunctionDecl :=
  mkFunctionDecl 5 "f" [mkVarDecl 5 "n" "int" true None]
    (Some (CompoundStmt [call_foo_3_x])).

(** ** What one node does to a sub-visitor *)

(** The effect of [WalkUpFrom] of a [VariableRefOrArrayVisitor] on its
    members. *)
Definition RefOrArray_step (v : VariableRefOrArrayVisitor) (n : Stmt)
    : VariableRefOrArrayVisitor :=
  snd (RefOrArray_WalkUpFrom n v).

(** The members of a [VariableStateFindVisitor] once it has met [value]. *)
Definition found_literal (value : APInt) : VariableStateFindVisitor :=
  {| FoundValue := Some (StPrimitive (getSExtValue value)) |}.

(** The outcome of a traversal that stops at the first integer literal. *)
Definition until_literal (l : list Stmt) (st : VariableStateFindVisitor)
    : bool * VariableStateFindVisitor :=
  match first_integer_literal l with
  | Some value => (false, found_literal value)
  | None => (true, st)
  end.

(** ** What a traversal does to the block *)

Section TraceShapes.

Context {ops : ConditionOps}.

Definition Entry : Type := (ProcessedAction * SourceLocation)%type.

(** The condition an action is tagged with. *)
Definition action_condition (a : ProcessedAction) : Condition :=
  match a with
  | VarDeclared cond _ _ | VarAssigned cond _ _
  | ArrayIndexAccess cond _ _ | FunctionCall cond _ _ => cond
  end.

(** The conditions built from [base] by conjoining further guards. *)
Inductive extends (base : Condition) : Condition -> Prop :=
| extends_base : extends base base
| extends_and (c guard : Condition) :
    extends base c -> extends base (Condition_And c guard).

Definition tagged_from (base : Condition) (e : Entry) : Prop :=
  extends base (action_condition (fst e)).

(** The block [Target] with the entries [new] after its own. *)
Definition add_actions (Target : CodeBlock) (new : list Entry) : CodeBlock :=
  {| BlockName := BlockName Target; BlockLocation := BlockLocation Target;
     Parameters := Parameters Target;
     Actions := Actions Target ++ new |}.

(** A step that goes on and only appends entries tagged from [base]. *)
Definition records (base : Condition) (v : Visit CodeBlock) : Prop :=
  forall Target, exists new,
    v Target = (true, add_actions Target new) /\ Forall (tagged_from base) new.

(** A registry that keeps the blocks in the order they are added. *)
Definition Log_AddBlock (block : CodeBlock) (Registry : list CodeBlock) : list CodeBlock :=
  Registry ++ [block].

End TraceShapes.

(** ** What a traversal contributes *)

Section TraceContent.

Context {ops : ConditionOps}.

(** The entries a step appends to a block that holds none. *)
Definition entries_of (v : Visit CodeBlock) : list Entry :=
  Actions (snd (v (CodeBlock_new "" 0))).

(** The entries the traversal of a statement appends. *)
Definition emitted (current : Condition) (s : Stmt) : list Entry :=
  entries_of (Value_TraverseStmt current s).

Definition emitted_optional (current : Condition) (o : option Stmt) : list Entry :=
  match o with
  | Some e => emitted current e
  | None => []
  end.

(** A state as the three call sites of [Set] and the default constructor
    leave it in the traversal. *)
Definition literal_or_unknown (st : VariableState) : Prop :=
  st = StUnknown \/ exists value, st = StPrimitive (getSExtValue value).

Definition well_formed_action (a : ProcessedAction) : Prop :=
  match a with
  | VarDeclared _ _ state =>
      state = StUnknown \/ exists size, 0 <= size /\ state = StBuffer size
  | VarAssigned _ _ state => exists source, state = StCopyVar source
  | ArrayIndexAccess _ _ index => exists value, index = StPrimitive (getSExtValue value)
  | FunctionCall _ _ params => Forall literal_or_unknown params
  end.

(** An entry tagged from [base] whose action is well formed. *)
Definition sound_entry (base : Condition) (e : Entry) : Prop :=
  tagged_from base e /\ well_formed_action (fst e).

(** A step that goes on and appends the same entries, all satisfying
    [P], whatever the block holds. *)
Definition writes (P : Entry -> Prop) (v : Visit CodeBlock) : Prop :=
  exists new, Forall P new /\ forall Target, v Target = (true, add_actions Target new).

(** Entries that all carry the condition [current] itself. *)
Definition exactly_tagged (current : Condition) (l : list Entry) : Prop :=
  Forall (fun e => action_condition (fst e) = current) l.


End TraceContent.

(** The nodes that can add an entry: a declaration, an assignment, a
    subscript expression, a direct call. *)
Definition recordable (n : Stmt) : bool :=
  match n with
  | DeclStmt _ _ _ _ => true
  | BinaryOperator _ BO_Assign _ _ => true
  | ArraySubscriptExpr _ _ _ => true
  | CallExpr _ (Some _) _ _ => true
  | _ => false
  end.

Definition is_IfStmt (n : Stmt) : bool :=
  match n with
  | IfStmt _ _ _ => true
  | _ => false
  end.

(** A statement without any [if] in it. *)
Definition if_free (s : Stmt) : Prop := forallb (fun n => negb (is_IfStmt n)) (preorder s) = true.

(** An expression that is a subscript expression, up to the implicit
    conversions and parentheses around it. *)
Fixpoint subscript_rooted (e : Stmt) : bool :=
  match e with
  | ArraySubscriptExpr _ _ _ => true
  | ImplicitCastExpr sub | ParenExpr sub => subscript_rooted sub
  | _ => false
  end.

(** [VarCopyInfo::operator==] *)
Definition VarCopyInfo_eqb (a b : VarCopyInfo) : bool :=
  VariableIdentifier_eqb (Source a) (Source b).

(** The relation on integers that a comparison symbol of C denotes. *)
Definition denotes (symbol : string) (x y : Z) : option bool :=
  if String.eqb symbol "<" then Some (x <? y)
  else if String.eqb symbol "<=" then Some (x <=? y)
  else if String.eqb symbol ">" then Some (x >? y)
  else if String.eqb symbol ">=" then Some (x >=? y)
  else if String.eqb symbol "!=" then Some (negb (x =? y))
  else if String.eqb symbol "==" then Some (x =? y)
  else None.

(** * Properties *)

(** ** The comparison operators *)

Lemma is_enumerator_cases (op : COMPARISON) :
  is_enumerator op <->
  op = LESS_THAN \/ op = LESS_THAN_EQUAL \/ op = GREATER_THAN \/
  op = GREATER_THAN_EQUAL \/ op = NOT_EQUAL \/ op = EQUAL.
Proof.
  unfold is_enumerator, enumerators; simpl.
  intuition congruence.
Qed.

Lemma is_enumerator_range (op : COMPARISON) : is_enumerator op <-> 0 <= op <= 5.
Proof.
  rewrite is_enumerator_cases.
  unfold LESS_THAN, LESS_THAN_EQUAL, GREATER_THAN, GREATER_THAN_EQUAL, NOT_EQUAL, EQUAL.
  lia.
Qed.

Ltac each_enumerator H :=
  apply is_enumerator_cases in H;
  destruct H as [H | [H | [H | [H | [H | H]]]]]; subst.

(** C7: on the six comparison operators [Negate] follows the table
    [<] to [>=], [<=] to [>], [>] to [<=], [>=] to [<], [!=] to [==] and
    [==] to [!=]; it returns an operator different from its argument,
    applying it twice gives the argument back, and it is one-to-one and
    onto the six operators. *)
Theorem Negate_involution (op : COMPARISON) (Hop : is_enumerator op) :
  (Negate LESS_THAN = Ret GREATER_THAN_EQUAL /\
   Negate LESS_THAN_EQUAL = Ret GREATER_THAN /\
   Negate GREATER_THAN = Ret LESS_THAN_EQUAL /\
   Negate GREATER_THAN_EQUAL = Ret LESS_THAN /\
   Negate NOT_EQUAL = Ret EQUAL /\
   Negate EQUAL = Ret NOT_EQUAL) /\
  (exists op', Negate op = Ret op' /\ is_enumerator op' /\ op' <> op /\
               Negate op' = Ret op) /\
  (forall other, is_enumerator other -> Negate op = Negate other -> op = other) /\
  (exists pre, is_enumerator pre /\ Negate pre = Ret op).
Proof.
  split; [repeat split; reflexivity |].
  split; [| split].
  - each_enumerator Hop;
      eexists; (split; [reflexivity |]);
      (split; [apply is_enumerator_range; vm_compute; split; discriminate |]);
      (split; [discriminate | reflexivity]).
  - intros other Hother Heq.
    each_enumerator Hop; each_enumerator Hother;
      try reflexivity; vm_compute in Heq; discriminate.
  - each_enumerator Hop;
      [ exists GREATER_THAN_EQUAL | exists GREATER_THAN | exists LESS_THAN_EQUAL
      | exists LESS_THAN | exists EQUAL | exists NOT_EQUAL ];
      (split; [apply is_enumerator_range; vm_compute; split; discriminate | reflexivity]).
Qed.

Lemma Negate_involution_witness :
  exists op', Negate LESS_THAN_EQUAL = Ret op' /\ is_enumerator op' /\
              op' <> LESS_THAN_EQUAL /\ Negate op' = Ret LESS_THAN_EQUAL.
Proof.
  apply (Negate_involution (op := LESS_THAN_EQUAL)).
  unfold is_enumerator, enumerators; simpl; auto.
Defined.

Lemma Negate_throws_iff (op : COMPARISON) : throws (Negate op) <-> ~ is_enumerator op.
Proof.
  rewrite is_enumerator_range. unfold throws, Negate.
  unfold LESS_THAN, LESS_THAN_EQUAL, GREATER_THAN, GREATER_THAN_EQUAL, NOT_EQUAL, EQUAL.
  repeat match goal with
         | |- context [op =? ?k] =>
             destruct (Z.eqb_spec op k);
             [ split; [ intros [w Hw]; discriminate | intros Hn; exfalso; lia ] |]
         end.
  split; [ intros _; lia | eexists; reflexivity ].
Qed.

Lemma Dump_throws_iff (op : COMPARISON) : throws (Dump op) <-> ~ is_enumerator op.
Proof.
  rewrite is_enumerator_range. unfold throws, Dump.
  unfold LESS_THAN, LESS_THAN_EQUAL, GREATER_THAN, GREATER_THAN_EQUAL, NOT_EQUAL, EQUAL.
  repeat match goal with
         | |- context [op =? ?k] =>
             destruct (Z.eqb_spec op k);
             [ split; [ intros [w Hw]; discriminate | intros Hn; exfalso; lia ] |]
         end.
  split; [ intros _; lia | eexists; reflexivity ].
Qed.

Lemma returns_or_throws {A : Type} (r : Res A) : returns r <-> ~ throws r.
Proof.
  unfold returns, throws; destruct r as [a | w]; split.
  - intros _ [w Hw]; discriminate.
  - intros _; eexists; reflexivity.
  - intros [a Ha]; discriminate.
  - intros Hn; exfalso; apply Hn; eexists; reflexivity.
Qed.

(** C8: [Negate] and [Dump] throw exactly on the values that are none of
    the six enumerators; on an enumerator both return. *)
Theorem Negate_Dump_throw_outside_only (op : COMPARISON) :
  (throws (Negate op) <-> ~ is_enumerator op) /\
  (throws (Dump op) <-> ~ is_enumerator op) /\
  (is_enumerator op -> returns (Negate op) /\ returns (Dump op)).
Proof.
  split; [apply Negate_throws_iff | split; [apply Dump_throws_iff |]].
  intros Hop; split; apply returns_or_throws.
  - rewrite Negate_throws_iff; tauto.
  - rewrite Dump_throws_iff; tauto.
Qed.

Lemma Negate_Dump_throw_outside_only_witness :
  returns (Negate NOT_EQUAL) /\ returns (Dump NOT_EQUAL).
Proof.
  apply (Negate_Dump_throw_outside_only NOT_EQUAL).
  unfold is_enumerator, enumerators; simpl; auto 6.
Defined.

(** ** BufferInfo *)

(** C9: a [BufferInfo] built by either constructor is never both null and
    sized: the [nullptr] constructor gives a null buffer with allocated
    size 0, the size constructor gives a buffer that is not null and holds
    the size.  A built buffer is null exactly when the [nullptr]
    constructor built it, and not null exactly when the size constructor
    did. *)
Theorem BufferInfo_null_xor_sized (b : BufferInfo) (Hb : constructed b) :
  (NullPtr BufferInfo_nullptr = true /\ AllocatedSize BufferInfo_nullptr = 0) /\
  (forall size, NullPtr (BufferInfo_size size) = false /\
                AllocatedSize (BufferInfo_size size) = size) /\
  ~ (NullPtr b = true /\ sized b) /\
  (NullPtr b = true <-> b = BufferInfo_nullptr) /\
  (NullPtr b = false <-> exists size, b = BufferInfo_size size).
Proof.
  split; [split; reflexivity |].
  split; [intros size; split; reflexivity |].
  destruct Hb as [| size Hsize]; unfold sized; simpl.
  - split; [intros [_ Hs]; apply Hs; reflexivity |].
    split; [tauto |].
    split; [discriminate | intros [size Hs]; discriminate].
  - split; [intros [Hn _]; discriminate |].
    split; [split; discriminate |].
    split; [intros _; exists size; reflexivity | reflexivity].
Qed.

Lemma BufferInfo_null_xor_sized_witness :
  ~ (NullPtr (BufferInfo_size 2) = true /\ sized (BufferInfo_size 2)).
Proof.
  apply (BufferInfo_null_xor_sized (b := BufferInfo_size 2)).
  constructor; lia.
Defined.

(** ** The traversal steps *)

Lemma andThen_go {S : Type} (a b : Visit S) (st st' : S) :
  a st = (true, st') -> (a ;;; b) st = b st'.
Proof. intros H; unfold andThen; rewrite H; reflexivity. Qed.

Lemma andThen_stop {S : Type} (a b : Visit S) (st st' : S) :
  a st = (false, st') -> (a ;;; b) st = (false, st').
Proof. intros H; unfold andThen; rewrite H; reflexivity. Qed.

(** Rewrite with the outcome [H] of the first of two steps. *)
Ltac went_on H := erewrite andThen_go by (apply H).
Ltac stopped H := erewrite andThen_stop by (apply H).

(** ** VariableRefOrArrayVisitor: the candidate it finds *)

Lemma RefOrArray_WalkUpFrom_step (n : Stmt) (v : VariableRefOrArrayVisitor) :
  RefOrArray_WalkUpFrom n v = (true, RefOrArray_step v n).
Proof.
  unfold RefOrArray_step.
  destruct n; try reflexivity.
  simpl; unfold VisitDeclRefExpr.
  destruct decl; [destruct (LikelyFullVariableAssign v) |]; reflexivity.
Qed.

Section ChildrenInOrder.

Context {S : Type}.
Variable traverse : Stmt -> Visit S.
Variable step : S -> Stmt -> S.

Let visits_all (s : Stmt) : Prop :=
  forall st, traverse s st = (true, fold_left step (preorder s) st).

Lemma children_in_order (l : list Stmt) :
  list_all visits_all l ->
  forall st,
    (fix children (l : list Stmt) : Visit S :=
       match l with
       | [] => go_on
       | c :: r => traverse c ;;; children r
       end) l st = (true, fold_left step (flat_map preorder l) st).
Proof.
  induction 1 as [| c Hc r Hr IH]; intros st; simpl.
  - reflexivity.
  - went_on Hc; rewrite fold_left_app. apply IH.
Qed.

End ChildrenInOrder.

(** The sub-visitor never aborts, and meets the nodes in pre-order. *)
Lemma RefOrArray_TraverseStmt_preorder (s : Stmt) :
  forall v, RefOrArray_TraverseStmt s v = (true, fold_left RefOrArray_step (preorder s) v).
Proof.
  unfold RefOrArray_TraverseStmt.
  induction s as
    [ body Hbody | loc name type init Hinit | cond IHc then_ IHt else_ Helse
    | cond IHc body IHb | value Hvalue | value | bytes | decl | sub IH | sub IH
    | opc sub IH | loc opc lhs IHl rhs IHr | loc lhs IHl rhs IHr
    | loc directCallee callee IHc args Hargs ];
    intros v; cbn [TraverseStmt preorder fold_left];
    went_on RefOrArray_WalkUpFrom_step;
    repeat rewrite fold_left_app;
    try reflexivity.
  - apply children_in_order; exact Hbody.
  - destruct Hinit as [e He |]; [apply He | reflexivity].
  - went_on IHc; went_on IHt.
    destruct Helse as [e He |]; [apply He | reflexivity].
  - went_on IHc. apply IHb.
  - destruct Hvalue as [e He |]; [apply He | reflexivity].
  - apply IH.
  - apply IH.
  - apply IH.
  - went_on IHl. apply IHr.
  - went_on IHl. apply IHr.
  - went_on IHc. apply children_in_order; exact Hargs.
Qed.

Lemma fold_RefOrArray_step_blind (l : list Stmt) (v : VariableRefOrArrayVisitor) :
  LikelyFullVariableAssign v = false ->
  FoundVar (fold_left RefOrArray_step l v) = FoundVar v.
Proof.
  revert v; induction l as [| n r IH]; intros v Hv; [reflexivity |].
  simpl. rewrite IH.
  - destruct n; try reflexivity.
    destruct decl; [| reflexivity].
    unfold RefOrArray_step; simpl; unfold VisitDeclRefExpr; rewrite Hv; reflexivity.
  - destruct n; try exact Hv; try reflexivity.
    destruct decl; [| exact Hv].
    unfold RefOrArray_step; simpl; unfold VisitDeclRefExpr; rewrite Hv; exact Hv.
Qed.

Lemma fold_RefOrArray_step_candidate (l : list Stmt) (v : VariableRefOrArrayVisitor) :
  LikelyFullVariableAssign v = true ->
  FoundVar (fold_left RefOrArray_step l v) =
  last_variable (before_subscript l) (FoundVar v).
Proof.
  revert v; induction l as [| n r IH]; intros v Hv; [reflexivity |].
  destruct n;
    try (simpl; rewrite IH; [reflexivity | exact Hv]).
  - destruct decl; simpl.
    + rewrite IH.
      * unfold RefOrArray_step; simpl; unfold VisitDeclRefExpr; rewrite Hv; reflexivity.
      * unfold RefOrArray_step; simpl; unfold VisitDeclRefExpr; rewrite Hv; reflexivity.
    + rewrite IH; [reflexivity | exact Hv].
  - simpl. rewrite fold_RefOrArray_step_blind; reflexivity.
Qed.

(** What the sub-visitor leaves in [FoundVar]: the last variable referenced
    before the first subscript expression of the tree. *)
Lemma find_var_candidate (e : Stmt) : find_var e = whole_variable_candidate e.
Proof.
  unfold find_var, whole_variable_candidate.
  rewrite RefOrArray_TraverseStmt_preorder; simpl snd.
  apply fold_RefOrArray_step_candidate. reflexivity.
Qed.

Lemma bare_variable_candidate (e : Stmt) (v : VariableIdentifier) :
  bare_variable e = Some v -> whole_variable_candidate e = Some v.
Proof.
  unfold whole_variable_candidate.
  induction e; simpl; try discriminate.
  - destruct decl; [| discriminate]. intros H; exact H.
  - exact IHe.
  - exact IHe.
Qed.

(** ** VariableStateFindVisitor: the value it finds *)

Lemma first_integer_literal_app (a b : list Stmt) :
  first_integer_literal (a ++ b) =
  match first_integer_literal a with
  | Some value => Some value
  | None => first_integer_literal b
  end.
Proof.
  induction a as [| n r IH]; [reflexivity |].
  destruct n; simpl; auto.
Qed.

Lemma until_literal_seq (a b : Visit VariableStateFindVisitor) (la lb : list Stmt)
    (st : VariableStateFindVisitor) :
  (forall st, a st = until_literal la st) ->
  (forall st, b st = until_literal lb st) ->
  (a ;;; b) st = until_literal (la ++ lb) st.
Proof.
  intros Ha Hb. unfold andThen, until_literal in *.
  rewrite Ha, first_integer_literal_app.
  destruct (first_integer_literal la); [reflexivity | apply Hb].
Qed.

Lemma until_literal_nil (st : VariableStateFindVisitor) : go_on st = until_literal [] st.
Proof. reflexivity. Qed.

Lemma children_until_literal (traverse : Stmt -> Visit VariableStateFindVisitor)
    (l : list Stmt) :
  list_all (fun s => forall st, traverse s st = until_literal (preorder s) st) l ->
  forall st,
    (fix children (l : list Stmt) : Visit VariableStateFindVisitor :=
       match l with
       | [] => go_on
       | c :: r => traverse c ;;; children r
       end) l st = until_literal (flat_map preorder l) st.
Proof.
  induction 1 as [| c Hc r Hr IH]; intros st.
  - reflexivity.
  - cbn [flat_map]. apply until_literal_seq; assumption.
Qed.

Lemma optional_until_literal (traverse : Stmt -> Visit VariableStateFindVisitor)
    (o : option Stmt) :
  option_all (fun s => forall st, traverse s st = until_literal (preorder s) st) o ->
  forall st,
    match o with Some e => traverse e | None => go_on end st =
    until_literal (match o with Some e => preorder e | None => [] end) st.
Proof.
  intros [e He |] st; [apply He | reflexivity].
Qed.

(** The sub-visitor stops at the first integer literal in pre-order and
    keeps its value; without one it runs to the end and finds nothing. *)
Lemma StateFind_TraverseStmt_first (s : Stmt) :
  forall st, StateFind_TraverseStmt s st = until_literal (preorder s) st.
Proof.
  unfold StateFind_TraverseStmt.
  induction s as
    [ body Hbody | loc name type init Hinit | cond IHc then_ IHt else_ Helse
    | cond IHc body IHb | value Hvalue | value | bytes | decl | sub IH | sub IH
    | opc sub IH | loc opc lhs IHl rhs IHr | loc lhs IHl rhs IHr
    | loc directCallee callee IHc args Hargs ];
    intros st; try reflexivity;
    cbn [TraverseStmt StateFind_TraverseOverride preorder];
    match goal with
    | |- (_ ;;; ?rest) st = until_literal (?n :: ?l) st =>
        change (rest st = until_literal l st)
    end.
  - apply children_until_literal; exact Hbody.
  - apply optional_until_literal; exact Hinit.
  - apply until_literal_seq; [exact IHc |].
    intros st'; apply until_literal_seq; [exact IHt |].
    apply optional_until_literal; exact Helse.
  - apply until_literal_seq; assumption.
  - apply optional_until_literal; exact Hvalue.
  - apply IH.
  - apply IH.
  - apply IH.
  - apply until_literal_seq; assumption.
  - apply until_literal_seq; assumption.
  - apply until_literal_seq; [exact IHc |].
    apply children_until_literal; exact Hargs.
Qed.

Lemma find_value_first (arg : Stmt) :
  match find_value arg with
  | Some found => found
  | None => VariableState_default
  end = argument_state arg.
Proof.
  unfold find_value, argument_state.
  rewrite StateFind_TraverseStmt_first. unfold until_literal.
  destruct (first_integer_literal (preorder arg)); reflexivity.
Qed.

Lemma callParams_argument_state (args : list Stmt) :
  callParams args = map argument_state args.
Proof.
  unfold callParams. apply map_ext. intros arg. apply find_value_first.
Qed.

(** ** The trace-building traversal only appends *)

Section TraceProperties.

Context {ops : ConditionOps}.

Lemma add_actions_nil (Target : CodeBlock) : add_actions Target [] = Target.
Proof. destruct Target; unfold add_actions; simpl; rewrite app_nil_r; reflexivity. Qed.

Lemma add_actions_app (Target : CodeBlock) (a b : list Entry) :
  add_actions (add_actions Target a) b = add_actions Target (a ++ b).
Proof. unfold add_actions; simpl; rewrite app_assoc; reflexivity. Qed.

Lemma AddProcessedAction_add (action : ProcessedAction) (loc : SourceLocation)
    (Target : CodeBlock) :
  AddProcessedAction action loc Target = add_actions Target [(action, loc)].
Proof. reflexivity. Qed.

Lemma extends_trans (a b c : Condition) : extends a b -> extends b c -> extends a c.
Proof.
  intros Hab Hbc; induction Hbc; [exact Hab | constructor; assumption].
Qed.

Lemma records_go_on (base : Condition) : records base go_on.
Proof.
  intros Target; exists []; split; [| constructor].
  unfold go_on; rewrite add_actions_nil; reflexivity.
Qed.

Lemma records_same (base : Condition) (v : Visit CodeBlock) :
  (forall Target, v Target = (true, Target)) -> records base v.
Proof.
  intros H Target; exists []; split; [| constructor].
  rewrite add_actions_nil; apply H.
Qed.

Lemma records_one (base : Condition) (v : Visit CodeBlock) (action : ProcessedAction)
    (loc : SourceLocation) :
  action_condition action = base ->
  (forall Target, v Target = (true, AddProcessedAction action loc Target)) ->
  records base v.
Proof.
  intros Hc H Target; exists [(action, loc)]; split; [apply H |].
  constructor; [| constructor]. unfold tagged_from; simpl; rewrite Hc; constructor.
Qed.

Lemma records_seq (base : Condition) (a b : Visit CodeBlock) :
  records base a -> records base b -> records base (a ;;; b).
Proof.
  intros Ha Hb Target.
  destruct (Ha Target) as [na [Ea Fa]].
  destruct (Hb (add_actions Target na)) as [nb [Eb Fb]].
  exists (na ++ nb); split.
  - unfold andThen; rewrite Ea, Eb, add_actions_app; reflexivity.
  - apply Forall_app; split; assumption.
Qed.

Lemma records_weaken (base base' : Condition) (v : Visit CodeBlock) :
  extends base base' -> records base' v -> records base v.
Proof.
  intros He Hv Target. destruct (Hv Target) as [new [E F]].
  exists new; split; [exact E |].
  eapply Forall_impl; [| exact F].
  intros e Hte; unfold tagged_from in *; eapply extends_trans; eassumption.
Qed.

Lemma records_VisitVarDecl (current : Condition) (var : VarDecl) :
  records current (VisitVarDecl current var).
Proof.
  unfold VisitVarDecl. destruct (IsParm var).
  - apply records_same; reflexivity.
  - eapply records_one; [| reflexivity]. reflexivity.
Qed.

Lemma records_VisitArraySubscriptExpr (current : Condition) (loc : SourceLocation)
    (lhs idx : Stmt) :
  records current (VisitArraySubscriptExpr current loc lhs idx).
Proof.
  unfold VisitArraySubscriptExpr. destruct (find_var lhs).
  - destruct idx; try (apply records_same; reflexivity).
    eapply records_one; [| reflexivity]. reflexivity.
  - apply records_same; reflexivity.
Qed.

Lemma records_VisitBinaryOperator (current : Condition) (loc : SourceLocation)
    (opc : BinaryOperatorKind) (lhs rhs : Stmt) :
  records current (VisitBinaryOperator current loc opc lhs rhs).
Proof.
  unfold VisitBinaryOperator.
  destruct opc; try (apply records_same; reflexivity).
  destruct (find_var lhs), (find_var rhs); try (apply records_same; reflexivity).
  eapply records_one; [| reflexivity]. reflexivity.
Qed.

Lemma records_TraverseCallExpr (current : Condition) (loc : SourceLocation)
    (directCallee : option string) (args : list Stmt) :
  records current (TraverseCallExpr current loc directCallee args).
Proof.
  unfold TraverseCallExpr. destruct directCallee.
  - eapply records_one; [| reflexivity]. reflexivity.
  - apply records_same; reflexivity.
Qed.

Lemma records_TraverseIfStmt (sub : Condition -> Stmt -> Visit CodeBlock)
    (current : Condition) (cond then_ : Stmt) (else_ : option Stmt) :
  (forall c, records c (sub c then_)) ->
  option_all (fun e => forall c, records c (sub c e)) else_ ->
  records current (TraverseIfStmt sub current cond then_ else_).
Proof.
  intros Hthen Helse Target. unfold TraverseIfStmt.
  destruct (parse_guard cond) as [[condition negated] | what].
  2: { exists []; split; [rewrite add_actions_nil; reflexivity | constructor]. }
  assert (H1 : exists n1,
             (if negb (IsAlwaysTrue negated)
              then snd (sub (Condition_And current condition) then_ Target)
              else Target) = add_actions Target n1 /\
             Forall (tagged_from current) n1).
  { destruct (negb (IsAlwaysTrue negated)).
    - destruct (Hthen (Condition_And current condition) Target) as [n [E F]].
      exists n; rewrite E; split; [reflexivity |].
      eapply Forall_impl; [| exact F].
      intros e He; unfold tagged_from in *.
      eapply extends_trans; [| exact He]. constructor; constructor.
    - exists []; split; [rewrite add_actions_nil; reflexivity | constructor]. }
  destruct H1 as [n1 [E1 F1]]. rewrite E1.
  destruct (negb (IsAlwaysTrue condition)).
  - destruct Helse as [e He |].
    + destruct (He (Condition_And current negated) (add_actions Target n1)) as [n2 [E2 F2]].
      exists (n1 ++ n2); rewrite E2, add_actions_app; split; [reflexivity |].
      apply Forall_app; split; [exact F1 |].
      eapply Forall_impl; [| exact F2].
      intros a Ha; unfold tagged_from in *.
      eapply extends_trans; [| exact Ha]. constructor; constructor.
    + exists n1; split; [reflexivity | exact F1].
  - exists n1; split; [reflexivity | exact F1].
Qed.

Lemma records_children (traverse : Condition -> Stmt -> Visit CodeBlock)
    (current : Condition) (l : list Stmt) :
  list_all (fun s => forall c, records c (traverse c s)) l ->
  records current
    ((fix children (l : list Stmt) : Visit CodeBlock :=
        match l with
        | [] => go_on
        | c :: r => traverse current c ;;; children r
        end) l).
Proof.
  induction 1 as [| c Hc r Hr IH].
  - apply records_go_on.
  - apply records_seq; [apply Hc | exact IH].
Qed.

Lemma records_optional (traverse : Condition -> Stmt -> Visit CodeBlock)
    (current : Condition) (o : option Stmt) :
  option_all (fun s => forall c, records c (traverse c s)) o ->
  records current (match o with Some e => traverse current e | None => go_on end).
Proof.
  intros [e He |]; [apply He | apply records_go_on].
Qed.

(** The traversal of a statement never aborts, leaves the entries of the
    block in place and appends entries whose conditions are built from
    the current one. *)
Lemma records_Value_TraverseStmt (s : Stmt) :
  forall current, records current (Value_TraverseStmt current s).
Proof.
  induction s as
    [ body Hbody | loc name type init Hinit | cond IHc then_ IHt else_ Helse
    | cond IHc body IHb | value Hvalue | value | bytes | decl | sub IH | sub IH
    | opc sub IH | loc opc lhs IHl rhs IHr | loc lhs IHl rhs IHr
    | loc directCallee callee IHc args Hargs ];
    intros current; cbn [Value_TraverseStmt].
  - apply records_children; exact Hbody.
  - apply records_seq; [apply records_VisitVarDecl |].
    apply records_optional; exact Hinit.
  - apply records_TraverseIfStmt; [exact IHt | exact Helse].
  - apply records_seq; [apply IHc | apply IHb].
  - apply records_optional; exact Hvalue.
  - apply records_go_on.
  - apply records_go_on.
  - apply records_go_on.
  - apply IH.
  - apply IH.
  - apply IH.
  - apply records_seq; [apply records_VisitBinaryOperator |].
    apply records_seq; [apply IHl | apply IHr].
  - apply records_seq; [apply records_VisitArraySubscriptExpr |].
    apply records_seq; [apply IHl | apply IHr].
  - apply records_TraverseCallExpr.
Qed.

Lemma Value_TraverseStmt_go (current : Condition) (s : Stmt) (Target : CodeBlock) :
  Value_TraverseStmt current s Target =
  (true, snd (Value_TraverseStmt current s Target)).
Proof.
  destruct (records_Value_TraverseStmt s current Target) as [new [E _]].
  rewrite E; reflexivity.
Qed.

Lemma Value_TraverseStmt_compound (current : Condition) (l : list Stmt) :
  Value_TraverseStmt current (CompoundStmt l) = Value_TraverseStmts current l.
Proof.
  cbn [Value_TraverseStmt].
  induction l as [| c r IH]; [reflexivity |].
  cbn [Value_TraverseStmts]. rewrite IH. reflexivity.
Qed.

Lemma Value_TraverseStmts_go (current : Condition) (l : list Stmt) (Target : CodeBlock) :
  Value_TraverseStmts current l Target =
  (true, snd (Value_TraverseStmts current l Target)).
Proof.
  revert Target; induction l as [| c r IH]; intros Target; [reflexivity |].
  cbn [Value_TraverseStmts]. unfold andThen.
  rewrite (Value_TraverseStmt_go current c Target). apply IH.
Qed.

Lemma Value_TraverseStmts_app (current : Condition) (a b : list Stmt) (Target : CodeBlock) :
  Value_TraverseStmts current (a ++ b) Target =
  Value_TraverseStmts current b (snd (Value_TraverseStmts current a Target)).
Proof.
  revert Target; induction a as [| c r IH]; intros Target; [reflexivity |].
  cbn [app Value_TraverseStmts]. unfold andThen.
  rewrite (Value_TraverseStmt_go current c Target). apply IH.
Qed.

End TraceProperties.

(** ** Conditional statements *)

(** C1: when the guard of an [if] is modelled, the then branch is
    traversed unless the negated condition is always true and the else
    branch unless the condition is always true.  So when the condition is
    always true, the else branch plays no part: the block is the one the then
    branch alone produces under the conjunction of the current condition
    and the guard, and every entry added is tagged with a condition built
    from that conjunction.  When the negated condition is always true,
    the same holds with the else branch under the conjunction with the
    negated condition, and the then branch plays no part. *)
Theorem dead_branch_pruning {ops : ConditionOps} (current : Condition)
    (cond then_ : Stmt) (else_ : option Stmt) (condition negated : Condition)
    (Target : CodeBlock)
    (Hguard : parse_guard cond = Ret (condition, negated)) :
  Value_TraverseStmt current (IfStmt cond then_ else_) Target =
    (true,
     let after_then :=
       if IsAlwaysTrue negated then Target
       else snd (Value_TraverseStmt (Condition_And current condition) then_ Target) in
     if IsAlwaysTrue condition then after_then
     else match else_ with
          | Some e => snd (Value_TraverseStmt (Condition_And current negated) e after_then)
          | None => after_then
          end) /\
  (IsAlwaysTrue condition = true ->
     Value_TraverseStmt current (IfStmt cond then_ else_) Target =
       (true, if IsAlwaysTrue negated then Target
              else snd (Value_TraverseStmt (Condition_And current condition) then_ Target)) /\
     exists new,
       snd (Value_TraverseStmt current (IfStmt cond then_ else_) Target) =
         add_actions Target new /\
       Forall (tagged_from (Condition_And current condition)) new) /\
  (IsAlwaysTrue negated = true ->
     Value_TraverseStmt current (IfStmt cond then_ else_) Target =
       (true, if IsAlwaysTrue condition then Target
              else match else_ with
                   | Some e => snd (Value_TraverseStmt (Condition_And current negated) e Target)
                   | None => Target
                   end) /\
     exists new,
       snd (Value_TraverseStmt current (IfStmt cond then_ else_) Target) =
         add_actions Target new /\
       Forall (tagged_from (Condition_And current negated)) new).
Proof.
  cbn [Value_TraverseStmt]; unfold TraverseIfStmt; rewrite Hguard.
  split.
  { destruct (IsAlwaysTrue negated), (IsAlwaysTrue condition); reflexivity. }
  split; intros Htrue; rewrite Htrue; cbn [negb snd].
  - destruct (IsAlwaysTrue negated); cbn [negb].
    + split; [reflexivity |].
      exists []; split; [rewrite add_actions_nil; reflexivity | constructor].
    + split; [reflexivity |].
      destruct (records_Value_TraverseStmt then_ (Condition_And current condition) Target)
        as [new [E F]].
      exists new; rewrite E; split; [reflexivity | exact F].
  - destruct (IsAlwaysTrue condition); cbn [negb].
    + split; [reflexivity |].
      exists []; split; [rewrite add_actions_nil; reflexivity | constructor].
    + split; [reflexivity |].
      destruct else_ as [e |].
      * destruct (records_Value_TraverseStmt e (Condition_And current negated) Target)
          as [new [E F]].
        exists new; rewrite E; split; [reflexivity | exact F].
      * exists []; split; [rewrite add_actions_nil; reflexivity | constructor].
Qed.

Lemma dead_branch_pruning_witness :
  Value_TraverseStmt (ops := SampleOps) [] if_true (CodeBlock_new "f" 0) =
    (true, snd (Value_TraverseStmt (ops := SampleOps) [GConstant true] then_arm
                  (CodeBlock_new "f" 0))) /\
  Value_TraverseStmt (ops := SampleOps) [] if_false (CodeBlock_new "f" 0) =
    (true, snd (Value_TraverseStmt (ops := SampleOps) [GConstant true] else_arm
                  (CodeBlock_new "f" 0))).
Proof.
  split.
  - exact (proj1 (proj1 (proj2 (@dead_branch_pruning SampleOps [] (int_literal 1) then_arm
                                  (Some else_arm) [GConstant true] [GConstant false]
                                  (CodeBlock_new "f" 0) eq_refl)) eq_refl)).
  - exact (proj1 (proj2 (proj2 (@dead_branch_pruning SampleOps [] (int_literal 0) then_arm
                                  (Some else_arm) [GConstant false] [GConstant true]
                                  (CodeBlock_new "f" 0) eq_refl)) eq_refl)).
Defined.

(** C2: when the guard of an [if] cannot be modelled, because building its
    condition or negating it throws, the statement leaves the block as it
    is, whatever its two branches hold, and the traversal goes on: a
    compound statement yields what it yields without the [if]. *)
Theorem unmodelled_guard_skips_conditional {ops : ConditionOps} (current : Condition)
    (cond then_ : Stmt) (else_ : option Stmt)
    (Hguard : throws (Condition_of cond) \/
              exists condition, Condition_of cond = Ret condition /\
                                throws (Condition_Negate condition)) :
  (forall Target,
     Value_TraverseStmt current (IfStmt cond then_ else_) Target = (true, Target)) /\
  (forall before after Target,
     Value_TraverseStmt current
       (CompoundStmt (before ++ IfStmt cond then_ else_ :: after)) Target =
     Value_TraverseStmt current (CompoundStmt (before ++ after)) Target).
Proof.
  assert (Hskip : forall Target,
             Value_TraverseStmt current (IfStmt cond then_ else_) Target = (true, Target)).
  { intros Target. cbn [Value_TraverseStmt]; unfold TraverseIfStmt, parse_guard.
    destruct Hguard as [[what Hw] | [condition [Hc [what Hw]]]].
    - rewrite Hw; reflexivity.
    - rewrite Hc, Hw; reflexivity. }
  split; [exact Hskip |].
  intros before after Target.
  rewrite !Value_TraverseStmt_compound, !Value_TraverseStmts_app.
  cbn [Value_TraverseStmts]. unfold andThen at 1. rewrite Hskip. reflexivity.
Qed.

Lemma unmodelled_guard_skips_conditional_witness :
  Value_TraverseStmt (ops := SampleOps) [] if_call (CodeBlock_new "f" 0) =
    (true, CodeBlock_new "f" 0) /\
  Value_TraverseStmt (ops := SampleOps) []
    (CompoundStmt ([assign_a_5] ++ if_call :: [assign_a_b])) (CodeBlock_new "f" 0) =
  Value_TraverseStmt (ops := SampleOps) []
    (CompoundStmt ([assign_a_5] ++ [assign_a_b])) (CodeBlock_new "f" 0).
Proof.
  pose proof (@unmodelled_guard_skips_conditional SampleOps []
                (CallExpr 0 (Some "f") (callee_of "f") []) then_arm (Some else_arm)
                (or_introl (ex_intro _ "unsupported guard" eq_refl)))
    as [Hskip Hrest].
  split; [apply Hskip | apply Hrest].
Defined.

(** ** Assignments *)

(** At [a = b + c;] the right side is no bare variable reference, and the
    assignment is recorded all the same, as a copy of [c]: an assignment
    from a compound expression does emit an action. *)
Lemma assignment_from_sum_recorded :
  bare_variable (BinaryOperator 0 BO_Add (rvalue "b") (rvalue "c")) = None /\
  Actions (snd (Value_TraverseStmt (ops := SampleOps) [] assign_a_b_plus_c
                  (CodeBlock_new "f" 0))) =
    [(VarAssigned [] (VariableIdentifier_of "a") (StCopyVar (VariableIdentifier_of "c")), 0)] /\
  Actions (snd (Value_TraverseStmt (ops := SampleOps) [] assign_a_b_plus_c
                  (CodeBlock_new "f" 0))) <> [].
Proof.
  split; [reflexivity | split; [reflexivity | discriminate]].
Qed.

(** C3, amended: an assignment operator is recorded exactly when each of
    its sides holds a reference to a variable that the pre-order walk
    meets before any subscript expression; then one
    [VarAssigned(target, CopyVar(source))] is appended, target and source
    being the last such reference of the left and of the right side.  When
    both sides are bare variable references these are the two variables:
    [a = b;] appends [VarAssigned(a, CopyVar(b))] and nothing else, [a = 5;]
    appends nothing, and for [a[0] = b;] no assignment is recorded, the
    only entry being the subscript access of its left side. *)
Theorem assignment_recorded_for_candidates {ops : ConditionOps} (current : Condition)
    (loc : SourceLocation) (opc : BinaryOperatorKind) (lhs rhs : Stmt)
    (Target : CodeBlock) :
  VisitBinaryOperator current loc opc lhs rhs Target =
    (true,
     match opc, whole_variable_candidate lhs, whole_variable_candidate rhs with
     | BO_Assign, Some target, Some source =>
         AddProcessedAction (VarAssigned current target (StCopyVar source)) loc Target
     | _, _, _ => Target
     end) /\
  (forall target source,
     opc = BO_Assign ->
     bare_variable lhs = Some target -> bare_variable rhs = Some source ->
     VisitBinaryOperator current loc opc lhs rhs Target =
       (true, AddProcessedAction (VarAssigned current target (StCopyVar source))
                loc Target)) /\
  Value_TraverseStmt current assign_a_b Target =
    (true, AddProcessedAction
             (VarAssigned current (VariableIdentifier_of "a")
                (StCopyVar (VariableIdentifier_of "b"))) 0 Target) /\
  Value_TraverseStmt current assign_a_5 Target = (true, Target) /\
  Value_TraverseStmt current assign_a0_b Target =
    (true, AddProcessedAction
             (ArrayIndexAccess current (VariableIdentifier_of "a") (StPrimitive 0))
             0 Target).
Proof.
  assert (Hgen : VisitBinaryOperator current loc opc lhs rhs Target =
    (true,
     match opc, whole_variable_candidate lhs, whole_variable_candidate rhs with
     | BO_Assign, Some target, Some source =>
         AddProcessedAction (VarAssigned current target (StCopyVar source)) loc Target
     | _, _, _ => Target
     end)).
  { unfold VisitBinaryOperator. rewrite !find_var_candidate.
    destruct opc; try reflexivity.
    destruct (whole_variable_candidate lhs), (whole_variable_candidate rhs); reflexivity. }
  split; [exact Hgen |].
  split.
  - intros target source Hopc Hl Hr. rewrite Hgen, Hopc.
    rewrite (bare_variable_candidate _ Hl), (bare_variable_candidate _ Hr). reflexivity.
  - repeat split; reflexivity.
Qed.

Lemma assignment_recorded_for_candidates_witness :
  VisitBinaryOperator (ops := SampleOps) [] 0 BO_Assign (lvalue "a") (rvalue "b")
    (CodeBlock_new "f" 0) =
  (true, AddProcessedAction
           (VarAssigned [] (VariableIdentifier_of "a")
              (StCopyVar (VariableIdentifier_of "b"))) 0 (CodeBlock_new "f" 0)).
Proof.
  exact (proj1 (proj2 (@assignment_recorded_for_candidates SampleOps [] 0 BO_Assign
                         (lvalue "a") (rvalue "b") (CodeBlock_new "f" 0)))
           (VariableIdentifier_of "a") (VariableIdentifier_of "b")
           eq_refl eq_refl eq_refl).
Defined.

(** ** Calls *)

(** At [foo(x + 3);] the argument is no bare integer literal, and it
    resolves to [Primitive(3)], not to [Unknown]. *)
Lemma call_argument_sum_resolved :
  bare_integer_literal (BinaryOperator 0 BO_Add (rvalue "x") (int_literal 3)) = None /\
  Actions (snd (Value_TraverseStmt (ops := SampleOps) [] call_foo_x_plus_3
                  (CodeBlock_new "f" 0))) =
    [(FunctionCall [] "foo" [StPrimitive 3], 0)] /\
  StPrimitive 3 <> StUnknown.
Proof.
  split; [reflexivity | split; [reflexivity | discriminate]].
Qed.

(** C4, amended: for a direct call one [FunctionCall] is appended, with
    the qualified name of the callee and one state per argument in
    argument order; an argument resolves to [Primitive(n)] exactly when
    its tree holds an integer literal, [n] being the first one in
    pre-order (the literal itself when the argument is a bare literal),
    and to [Unknown] exactly when it holds none.  [foo(3, x);] appends
    [FunctionCall("foo", [Primitive(3), Unknown])], whatever the block
    recorded before. *)
Theorem call_recorded_with_argument_states {ops : ConditionOps} (current : Condition)
    (loc : SourceLocation) (functionName : string) (callee : Stmt) (args : list Stmt)
    (Target : CodeBlock) :
  Value_TraverseStmt current (CallExpr loc (Some functionName) callee args) Target =
    (true, AddProcessedAction
             (FunctionCall current functionName (map argument_state args)) loc Target) /\
  List.length (map argument_state args) = List.length args /\
  (forall arg value,
     bare_integer_literal arg = Some value ->
     argument_state arg = StPrimitive (getSExtValue value)) /\
  (forall arg,
     (argument_state arg = StUnknown <-> first_integer_literal (preorder arg) = None) /\
     (forall value, first_integer_literal (preorder arg) = Some value ->
                    argument_state arg = StPrimitive (getSExtValue value))) /\
  Value_TraverseStmt current call_foo_3_x Target =
    (true, AddProcessedAction
             (FunctionCall current "foo" [StPrimitive 3; StUnknown]) 0 Target).
Proof.
  split.
  { cbn [Value_TraverseStmt]; unfold TraverseCallExpr.
    rewrite callParams_argument_state; reflexivity. }
  split; [apply length_map |].
  split.
  { intros arg value H. destruct arg; try discriminate.
    injection H as ->. reflexivity. }
  split.
  { intros arg. unfold argument_state.
    destruct (first_integer_literal (preorder arg)) as [v |].
    - split; [split; discriminate |].
      intros value H; injection H as ->; reflexivity.
    - split; [split; reflexivity | discriminate]. }
  reflexivity.
Qed.

Lemma call_recorded_with_argument_states_witness :
  argument_state (int_literal 3) = StPrimitive 3.
Proof.
  exact (proj1 (proj2 (proj2 (@call_recorded_with_argument_states SampleOps [] 0 "foo"
                                (callee_of "foo") [] (CodeBlock_new "f" 0))))
           (int_literal 3) (mkAPInt 32 3) eq_refl).
Defined.

(** ** Subscript expressions *)

(** At [(p + q)[3];] the base is no bare variable, and an access is
    recorded all the same, on [q]. *)
Lemma subscript_of_sum_recorded :
  bare_variable (ParenExpr (BinaryOperator 0 BO_Add (rvalue "p") (rvalue "q"))) = None /\
  VisitArraySubscriptExpr (ops := SampleOps) [] 0
    (ParenExpr (BinaryOperator 0 BO_Add (rvalue "p") (rvalue "q"))) (int_literal 3)
    (CodeBlock_new "f" 0) =
  (true, AddProcessedAction
           (ArrayIndexAccess [] (VariableIdentifier_of "q") (StPrimitive 3)) 0
           (CodeBlock_new "f" 0)) /\
  Actions (snd (Value_TraverseStmt (ops := SampleOps) [] subscript_p_plus_q_3
                  (CodeBlock_new "f" 0))) <> [].
Proof.
  split; [reflexivity | split; [reflexivity | discriminate]].
Qed.

(** C5, amended: a subscript expression is recorded exactly when its base
    holds a reference to a variable that the pre-order walk meets before
    any subscript expression and its index is a literal integer; the
    access is recorded on the last such reference, which is the base
    itself when the base is a bare variable.  [buf[3];] appends
    [ArrayIndexAccess(buf, Primitive(3))]; [buf[i];] appends nothing; the
    outer access of [a[b[0]];] appends nothing, its index being no
    literal, and the statement leaves the inner access [b[0]] as its only
    entry. *)
Theorem subscript_recorded_for_candidate {ops : ConditionOps} (current : Condition)
    (loc : SourceLocation) (lhs idx : Stmt) (Target : CodeBlock) :
  VisitArraySubscriptExpr current loc lhs idx Target =
    (true,
     match whole_variable_candidate lhs, bare_integer_literal idx with
     | Some array, Some value =>
         AddProcessedAction
           (ArrayIndexAccess current array (StPrimitive (getSExtValue value))) loc Target
     | _, _ => Target
     end) /\
  (forall array value,
     bare_variable lhs = Some array -> bare_integer_literal idx = Some value ->
     VisitArraySubscriptExpr current loc lhs idx Target =
       (true, AddProcessedAction
                (ArrayIndexAccess current array (StPrimitive (getSExtValue value)))
                loc Target)) /\
  (bare_integer_literal idx = None ->
     VisitArraySubscriptExpr current loc lhs idx Target = (true, Target)) /\
  Value_TraverseStmt current subscript_buf_3 Target =
    (true, AddProcessedAction
             (ArrayIndexAccess current (VariableIdentifier_of "buf") (StPrimitive 3))
             0 Target) /\
  Value_TraverseStmt current subscript_buf_i Target = (true, Target) /\
  VisitArraySubscriptExpr current 0 (rvalue "a")
    (ImplicitCastExpr (ArraySubscriptExpr 0 (rvalue "b") (int_literal 0))) Target =
    (true, Target) /\
  Value_TraverseStmt current subscript_a_b0 Target =
    (true, AddProcessedAction
             (ArrayIndexAccess current (VariableIdentifier_of "b") (StPrimitive 0))
             0 Target).
Proof.
  assert (Hgen : VisitArraySubscriptExpr current loc lhs idx Target =
    (true,
     match whole_variable_candidate lhs, bare_integer_literal idx with
     | Some array, Some value =>
         AddProcessedAction
           (ArrayIndexAccess current array (StPrimitive (getSExtValue value))) loc Target
     | _, _ => Target
     end)).
  { unfold VisitArraySubscriptExpr. rewrite find_var_candidate.
    destruct (whole_variable_candidate lhs); [| reflexivity].
    destruct idx; reflexivity. }
  split; [exact Hgen |].
  split.
  { intros array value Hl Hi.
    rewrite Hgen, (bare_variable_candidate _ Hl), Hi. reflexivity. }
  split.
  { intros Hi. rewrite Hgen, Hi.
    destruct (whole_variable_candidate lhs); reflexivity. }
  repeat split; reflexivity.
Qed.

Lemma subscript_recorded_for_candidate_witness :
  VisitArraySubscriptExpr (ops := SampleOps) [] 0 (rvalue "buf") (int_literal 3)
    (CodeBlock_new "f" 0) =
  (true, AddProcessedAction
           (ArrayIndexAccess [] (VariableIdentifier_of "buf")
              (StPrimitive (getSExtValue (mkAPInt 32 3)))) 0 (CodeBlock_new "f" 0)).
Proof.
  exact (proj1 (proj2 (@subscript_recorded_for_candidate SampleOps [] 0
                         (rvalue "buf") (int_literal 3) (CodeBlock_new "f" 0)))
           (VariableIdentifier_of "buf") (mkAPInt 32 3) eq_refl eq_refl).
Defined.

(** ** Variable declarations *)

(** At [char* s = "hi";] the initializer is the implicit conversion of the
    literal to a pointer, not the literal: the declaration is recorded
    with the state [Unknown], not [Buffer(2)]. *)
Lemma pointer_to_literal_unknown :
  VisitVarDecl (ops := SampleOps) [] decl_pointer_s_hi (CodeBlock_new "f" 0) =
    (true, AddProcessedAction (VarDeclared [] (VariableIdentifier_of "s") StUnknown) 0
             (CodeBlock_new "f" 0)) /\
  StUnknown <> StBuffer 2.
Proof.
  split; [reflexivity | discriminate].
Qed.

(** C6, amended: every declaration of a variable that is no parameter
    appends one [VarDeclared]; its state is [Buffer(size)] when the
    initializer node is itself a string literal, [size] being the number
    of bytes of the literal without a terminator, and [Unknown] for every
    other initializer and for none.  [char s[] = "hi";] gives
    [Buffer(2)]; [char* s = "hi";], whose initializer is the implicit
    conversion of the literal to a pointer, gives [Unknown]. *)
Theorem declaration_recorded {ops : ConditionOps} (current : Condition) (var : VarDecl)
    (Target : CodeBlock) (Hlocal : IsParm var = false) :
  VisitVarDecl current var Target =
    (true, AddProcessedAction
             (VarDeclared current (VariableIdentifier_of (VarQualifiedName var))
                match getAnyInitializer var with
                | Some (StringLiteral bytes) => StBuffer (getByteLength bytes)
                | _ => StUnknown
                end)
             (VarLoc var) Target) /\
  getByteLength "hi" = 2 /\
  VisitVarDecl current decl_array_s_hi Target =
    (true, AddProcessedAction
             (VarDeclared current (VariableIdentifier_of "s") (StBuffer 2)) 0 Target) /\
  VisitVarDecl current decl_pointer_s_hi Target =
    (true, AddProcessedAction
             (VarDeclared current (VariableIdentifier_of "s") StUnknown) 0 Target).
Proof.
  split; [| repeat split; reflexivity].
  unfold VisitVarDecl. rewrite Hlocal.
  destruct (getAnyInitializer var) as [init |]; [destruct init |]; reflexivity.
Qed.

Lemma declaration_recorded_witness :
  VisitVarDecl (ops := SampleOps) [] decl_array_s_hi (CodeBlock_new "f" 0) =
    (true, AddProcessedAction
             (VarDeclared [] (VariableIdentifier_of "s") (StBuffer (getByteLength "hi")))
             0 (CodeBlock_new "f" 0)).
Proof.
  exact (proj1 (@declaration_recorded SampleOps [] decl_array_s_hi
                  (CodeBlock_new "f" 0) eq_refl)).
Defined.

(** ** Function declarations *)

Lemma TraverseParmVarDecl_keeps {ops : ConditionOps} (p : VarDecl) (Target : CodeBlock) :
  exists Target',
    TraverseParmVarDecl p Target = (true, Target') /\
    BlockName Target' = BlockName Target /\
    BlockLocation Target' = BlockLocation Target /\
    (IsParm p = true -> Actions Target' = Actions Target).
Proof.
  unfold TraverseParmVarDecl, andThen, VisitVarDecl, VisitParmVarDecl.
  destruct (IsParm p); eexists; (split; [reflexivity |]);
    repeat split; try reflexivity; discriminate.
Qed.

Lemma TraverseParameters_keeps {ops : ConditionOps} (l : list VarDecl) (Target : CodeBlock) :
  exists Target',
    TraverseParameters l Target = (true, Target') /\
    BlockName Target' = BlockName Target /\
    BlockLocation Target' = BlockLocation Target /\
    (Forall (fun p => IsParm p = true) l -> Actions Target' = Actions Target).
Proof.
  revert Target; induction l as [| p r IH]; intros Target.
  - exists Target; repeat split; reflexivity.
  - destruct (TraverseParmVarDecl_keeps p Target) as [T1 [E1 [N1 [L1 A1]]]].
    destruct (IH T1) as [T2 [E2 [N2 [L2 A2]]]].
    exists T2. cbn [TraverseParameters]. went_on E1.
    split; [exact E2 |].
    split; [congruence |]. split; [congruence |].
    intros HF; inversion HF; subst. rewrite A2, A1; auto.
Qed.

Lemma build_block_keeps {ops : ConditionOps} (fun_ : FunctionDecl) :
  BlockName (build_block fun_) = FunQualifiedName fun_ /\
  BlockLocation (build_block fun_) = FunLoc fun_ /\
  (getBody fun_ = None -> Forall (fun p => IsParm p = true) (parameters fun_) ->
   Actions (build_block fun_) = []).
Proof.
  unfold build_block, FunctionVisitor_TraverseDecl.
  destruct (TraverseParameters_keeps (parameters fun_)
              (CodeBlock_new (FunQualifiedName fun_) (FunLoc fun_)))
    as [T1 [E1 [N1 [L1 A1]]]].
  went_on E1.
  destruct (getBody fun_) as [body |].
  - destruct (records_Value_TraverseStmt body BaseCurrentCondition T1) as [new [E _]].
    rewrite E; cbn [snd add_actions BlockName BlockLocation].
    repeat split; try assumption. discriminate.
  - cbn [snd go_on]. repeat split; try assumption.
    intros _ HF; apply A1; exact HF.
Qed.

Lemma TraverseTranslationUnit_fold {ops : ConditionOps} (BlockRegistry : Type)
    (AddBlock : CodeBlock -> BlockRegistry -> BlockRegistry)
    (decls : list FunctionDecl) (Registry : BlockRegistry) :
  TraverseTranslationUnit AddBlock decls Registry =
  (true, fold_left (fun reg d => AddBlock (build_block d) reg) decls Registry).
Proof.
  revert Registry; induction decls as [| d r IH]; intros Registry; [reflexivity |].
  cbn [TraverseTranslationUnit fold_left]. unfold andThen, TraverseFunctionDecl at 1.
  apply IH.
Qed.

(** C10: each visit of a function declaration by [TraverseFunctionDecl],
    with a body or without, adds one block to the registry; the block
    carries the qualified name and the location of the declaration, and
    for a declaration without a body it holds no action.  A function that
    is declared and then defined is added twice, both blocks under the
    same name; over a translation unit the registry receives one block
    per declaration, in order. *)
Theorem one_block_per_function_declaration {ops : ConditionOps} (BlockRegistry : Type)
    (AddBlock : CodeBlock -> BlockRegistry -> BlockRegistry)
    (fun_ : FunctionDecl) (Registry : BlockRegistry) :
  TraverseFunctionDecl AddBlock fun_ Registry = (true, AddBlock (build_block fun_) Registry) /\
  BlockName (build_block fun_) = FunQualifiedName fun_ /\
  BlockLocation (build_block fun_) = FunLoc fun_ /\
  (getBody fun_ = None -> Forall (fun p => IsParm p = true) (parameters fun_) ->
   Actions (build_block fun_) = []) /\
  (forall definition,
     FunQualifiedName definition = FunQualifiedName fun_ ->
     TraverseTranslationUnit AddBlock [fun_; definition] Registry =
       (true, AddBlock (build_block definition) (AddBlock (build_block fun_) Registry)) /\
     BlockName (build_block definition) = BlockName (build_block fun_)) /\
  (forall decls log,
     TraverseTranslationUnit Log_AddBlock decls log = (true, log ++ map build_block decls) /\
     List.length (snd (TraverseTranslationUnit Log_AddBlock decls log)) =
       (List.length log + List.length decls)%nat).
Proof.
  destruct (build_block_keeps fun_) as [Hn [Hl Ha]].
  split; [reflexivity |].
  split; [exact Hn |]. split; [exact Hl |]. split; [exact Ha |].
  split.
  - intros definition Hsame. split; [reflexivity |].
    destruct (build_block_keeps definition) as [Hn' _]. congruence.
  - assert (Hlog : forall decls log,
               TraverseTranslationUnit Log_AddBlock decls log =
               (true, log ++ map build_block decls)).
    { intros decls log. rewrite TraverseTranslationUnit_fold. f_equal.
      revert log; induction decls as [| d r IH]; intros log; cbn [fold_left map].
      - rewrite app_nil_r; reflexivity.
      - rewrite IH. unfold Log_AddBlock. rewrite <- app_assoc. reflexivity. }
    intros decls log. split; [apply Hlog |].
    rewrite Hlog; cbn [snd]. rewrite length_app, length_map. reflexivity.
Qed.

Lemma one_block_per_function_declaration_witness :
  TraverseTranslationUnit (ops := SampleOps) Log_AddBlock [f_declared; f_defined] [] =
    (true, [build_block f_declared; build_block f_defined]) /\
  BlockName (build_block (ops := SampleOps) f_defined) =
    BlockName (build_block (ops := SampleOps) f_declared) /\
  Actions (build_block (ops := SampleOps) f_declared) = [].
Proof.
  pose proof (@one_block_per_function_declaration SampleOps (list CodeBlock)
                Log_AddBlock f_declared []) as [_ [_ [_ [Hempty [Htwice _]]]]].
  destruct (Htwice f_defined eq_refl) as [Hunit Hname].
  split; [exact Hunit |]. split; [exact Hname |].
  apply Hempty; [reflexivity |].
  repeat constructor.
Defined.

(** * Further properties of the code *)

(** ** Variable.h: equality and the two operator tables *)

(** X1: [operator==] of [VariableIdentifier], of [BufferInfo] and of
    [VarCopyInfo] holds exactly of two objects with the same members. *)
Theorem equality_operators_exact :
  (forall a b : VariableIdentifier, VariableIdentifier_eqb a b = true <-> a = b) /\
  (forall a b : BufferInfo, BufferInfo_eqb a b = true <-> a = b) /\
  (forall a b : VarCopyInfo, VarCopyInfo_eqb a b = true <-> a = b).
Proof.
  assert (Hident : forall a b : VariableIdentifier,
             VariableIdentifier_eqb a b = true <-> a = b).
  { intros [a] [b]; unfold VariableIdentifier_eqb; simpl.
    rewrite String.eqb_eq. split; [intros ->; reflexivity | intros H; injection H; auto]. }
  split; [exact Hident |]. split.
  - intros [na sa] [nb sb]; unfold BufferInfo_eqb; simpl.
    rewrite andb_true_iff, Bool.eqb_true_iff, Z.eqb_eq.
    split; [intros [-> ->]; reflexivity | intros H; injection H; auto].
  - intros [a] [b]; unfold VarCopyInfo_eqb; simpl. rewrite Hident.
    split; [intros ->; reflexivity | intros H; injection H; auto].
Qed.

(** X2: [Dump] prints different symbols for different operators. *)
Theorem Dump_one_to_one (a b : COMPARISON)
    (Ha : is_enumerator a) (Hb : is_enumerator b) (Heq : Dump a = Dump b) :
  a = b.
Proof.
  each_enumerator Ha; each_enumerator Hb;
    try reflexivity; vm_compute in Heq; discriminate.
Qed.

Lemma Dump_one_to_one_witness : Negate LESS_THAN_EQUAL = Ret 2.
Proof.
  rewrite <- (@Dump_one_to_one GREATER_THAN 2); [reflexivity | | | reflexivity];
    apply is_enumerator_range; vm_compute; split; discriminate.
Defined.

(** X3: the two tables agree: on integers, the symbol [Dump] prints for
    the operator [Negate] returns denotes the complement of the relation
    denoted by the symbol printed for the operator itself. *)
Theorem Negate_complements (op : COMPARISON) (Hop : is_enumerator op) :
  exists op' symbol symbol',
    Negate op = Ret op' /\ Dump op = Ret symbol /\ Dump op' = Ret symbol' /\
    forall x y, exists holds,
      denotes symbol x y = Some holds /\ denotes symbol' x y = Some (negb holds).
Proof.
  each_enumerator Hop;
    do 3 eexists; (split; [reflexivity |]); (split; [reflexivity |]);
    (split; [reflexivity |]); intros x y; eexists; (split; [reflexivity |]);
    cbn [denotes String.eqb Ascii.eqb Bool.eqb]; f_equal;
    rewrite ?Z.geb_leb, ?Z.gtb_ltb;
    repeat match goal with
           | |- context [?a <? ?b] => destruct (Z.ltb_spec a b)
           | |- context [?a <=? ?b] => destruct (Z.leb_spec a b)
           | |- context [?a =? ?b] => destruct (Z.eqb_spec a b)
           end;
    cbn [negb]; try reflexivity; lia.
Qed.

Lemma Negate_complements_witness :
  exists op' symbol symbol',
    Negate LESS_THAN = Ret op' /\ Dump LESS_THAN = Ret symbol /\
    Dump op' = Ret symbol' /\
    forall x y, exists holds,
      denotes symbol x y = Some holds /\ denotes symbol' x y = Some (negb holds).
Proof.
  apply (@Negate_complements LESS_THAN).
  apply is_enumerator_range; vm_compute; split; discriminate.
Defined.

(** ** The traversal as a writer *)

Section WriterProperties.

Context {ops : ConditionOps}.

Lemma writes_go_on (P : Entry -> Prop) : writes P go_on.
Proof.
  exists []; split; [constructor |].
  intros Target; unfold go_on; rewrite add_actions_nil; reflexivity.
Qed.

Lemma writes_same (P : Entry -> Prop) (v : Visit CodeBlock) :
  (forall Target, v Target = (true, Target)) -> writes P v.
Proof.
  intros H; exists []; split; [constructor |].
  intros Target; rewrite add_actions_nil; apply H.
Qed.

Lemma writes_one (P : Entry -> Prop) (v : Visit CodeBlock) (action : ProcessedAction)
    (loc : SourceLocation) :
  P (action, loc) ->
  (forall Target, v Target = (true, AddProcessedAction action loc Target)) ->
  writes P v.
Proof.
  intros HP H; exists [(action, loc)]; split; [repeat constructor; exact HP | exact H].
Qed.

Lemma writes_seq (P : Entry -> Prop) (a b : Visit CodeBlock) :
  writes P a -> writes P b -> writes P (a ;;; b).
Proof.
  intros [na [Fa Ea]] [nb [Fb Eb]].
  exists (na ++ nb); split; [apply Forall_app; split; assumption |].
  intros Target; unfold andThen; rewrite Ea, Eb, add_actions_app; reflexivity.
Qed.

Lemma writes_impl (P Q : Entry -> Prop) (v : Visit CodeBlock) :
  (forall e, P e -> Q e) -> writes P v -> writes Q v.
Proof.
  intros HPQ [new [F E]]; exists new; split; [| exact E].
  eapply Forall_impl; [exact HPQ | exact F].
Qed.

Lemma sound_entry_weaken (base base' : Condition) (e : Entry) :
  extends base base' -> sound_entry base' e -> sound_entry base e.
Proof.
  intros He [Ht Hw]; split; [| exact Hw].
  unfold tagged_from in *; eapply extends_trans; eassumption.
Qed.

Lemma sound_entry_here (current : Condition) (action : ProcessedAction)
    (loc : SourceLocation) :
  action_condition action = current -> well_formed_action action ->
  sound_entry current (action, loc).
Proof.
  intros Hc Hw; split; [| exact Hw].
  unfold tagged_from; simpl; rewrite Hc; constructor.
Qed.

Lemma getByteLength_nonneg (bytes : string) : 0 <= getByteLength bytes.
Proof. unfold getByteLength; lia. Qed.

Lemma argument_state_literal_or_unknown (arg : Stmt) :
  literal_or_unknown (argument_state arg).
Proof.
  unfold argument_state, literal_or_unknown.
  destruct (first_integer_literal (preorder arg)) as [value |];
    [right; exists value; reflexivity | left; reflexivity].
Qed.

Lemma writes_VisitVarDecl (current : Condition) (var : VarDecl) :
  writes (sound_entry current) (VisitVarDecl current var).
Proof.
  unfold VisitVarDecl. destruct (IsParm var).
  - apply writes_same; reflexivity.
  - eapply writes_one; [| reflexivity].
    apply sound_entry_here; [reflexivity |]. simpl.
    destruct (getAnyInitializer var) as [init |]; [destruct init |];
      try (left; reflexivity).
    right; exists (getByteLength bytes); split;
      [apply getByteLength_nonneg | reflexivity].
Qed.

Lemma writes_VisitArraySubscriptExpr (current : Condition) (loc : SourceLocation)
    (lhs idx : Stmt) :
  writes (sound_entry current) (VisitArraySubscriptExpr current loc lhs idx).
Proof.
  unfold VisitArraySubscriptExpr. destruct (find_var lhs).
  - destruct idx; try (apply writes_same; reflexivity).
    eapply writes_one; [| reflexivity].
    apply sound_entry_here; [reflexivity |]. exists value; reflexivity.
  - apply writes_same; reflexivity.
Qed.

Lemma writes_VisitBinaryOperator (current : Condition) (loc : SourceLocation)
    (opc : BinaryOperatorKind) (lhs rhs : Stmt) :
  writes (sound_entry current) (VisitBinaryOperator current loc opc lhs rhs).
Proof.
  unfold VisitBinaryOperator.
  destruct opc; try (apply writes_same; reflexivity).
  destruct (find_var lhs), (find_var rhs) as [source |];
    try (apply writes_same; reflexivity).
  eapply writes_one; [| reflexivity].
  apply sound_entry_here; [reflexivity |]. exists source; reflexivity.
Qed.

Lemma writes_TraverseCallExpr (current : Condition) (loc : SourceLocation)
    (directCallee : option string) (args : list Stmt) :
  writes (sound_entry current) (TraverseCallExpr current loc directCallee args).
Proof.
  unfold TraverseCallExpr. destruct directCallee.
  - eapply writes_one; [| reflexivity].
    apply sound_entry_here; [reflexivity |]. simpl.
    rewrite callParams_argument_state. apply Forall_map, Forall_forall.
    intros arg _; apply argument_state_literal_or_unknown.
  - apply writes_same; reflexivity.
Qed.

Lemma writes_TraverseIfStmt (sub : Condition -> Stmt -> Visit CodeBlock)
    (current : Condition) (cond then_ : Stmt) (else_ : option Stmt) :
  (forall c, writes (sound_entry c) (sub c then_)) ->
  option_all (fun e => forall c, writes (sound_entry c) (sub c e)) else_ ->
  writes (sound_entry current) (TraverseIfStmt sub current cond then_ else_).
Proof.
  intros Hthen Helse. unfold TraverseIfStmt.
  destruct (parse_guard cond) as [[condition negated] | what];
    [| apply writes_same; reflexivity].
  assert (Hinto : forall guard e,
             sound_entry (Condition_And current guard) e -> sound_entry current e).
  { intros guard e. apply sound_entry_weaken. constructor; constructor. }
  assert (H1 : writes (sound_entry current)
                 (fun Target =>
                    (true, if negb (IsAlwaysTrue negated)
                           then snd (sub (Condition_And current condition) then_ Target)
                           else Target))).
  { destruct (negb (IsAlwaysTrue negated)); [| apply writes_same; reflexivity].
    destruct (Hthen (Condition_And current condition)) as [n [F E]].
    exists n; split; [eapply Forall_impl; [apply Hinto | exact F] |].
    intros Target; rewrite E; reflexivity. }
  assert (H2 : writes (sound_entry current)
                 (fun Target =>
                    (true, if negb (IsAlwaysTrue condition)
                           then match else_ with
                                | Some e => snd (sub (Condition_And current negated) e Target)
                                | None => Target
                                end
                           else Target))).
  { destruct (negb (IsAlwaysTrue condition)); [| apply writes_same; reflexivity].
    destruct Helse as [e He |]; [| apply writes_same; reflexivity].
    destruct (He (Condition_And current negated)) as [n [F E]].
    exists n; split; [eapply Forall_impl; [apply Hinto | exact F] |].
    intros Target; rewrite E; reflexivity. }
  destruct H1 as [n1 [F1 E1]], H2 as [n2 [F2 E2]].
  exists (n1 ++ n2); split; [apply Forall_app; split; assumption |].
  intros Target. rewrite <- add_actions_app.
  specialize (E1 Target). injection E1 as E1. rewrite <- E1.
  specialize (E2 (if negb (IsAlwaysTrue negated)
                  then snd (sub (Condition_And current condition) then_ Target)
                  else Target)).
  injection E2 as E2. rewrite <- E2. reflexivity.
Qed.

Lemma writes_children (traverse : Condition -> Stmt -> Visit CodeBlock)
    (current : Condition) (l : list Stmt) :
  list_all (fun s => forall c, writes (sound_entry c) (traverse c s)) l ->
  writes (sound_entry current)
    ((fix children (l : list Stmt) : Visit CodeBlock :=
        match l with
        | [] => go_on
        | c :: r => traverse current c ;;; children r
        end) l).
Proof.
  induction 1 as [| c Hc r Hr IH].
  - apply writes_go_on.
  - apply writes_seq; [apply Hc | exact IH].
Qed.

Lemma writes_optional (traverse : Condition -> Stmt -> Visit CodeBlock)
    (current : Condition) (o : option Stmt) :
  option_all (fun s => forall c, writes (sound_entry c) (traverse c s)) o ->
  writes (sound_entry current)
    (match o with Some e => traverse current e | None => go_on end).
Proof.
  intros [e He |]; [apply He | apply writes_go_on].
Qed.

Lemma writes_Value_TraverseStmt (s : Stmt) :
  forall current, writes (sound_entry current) (Value_TraverseStmt current s).
Proof.
  induction s as
    [ body Hbody | loc name type init Hinit | cond IHc then_ IHt else_ Helse
    | cond IHc body IHb | value Hvalue | value | bytes | decl | sub IH | sub IH
    | opc sub IH | loc opc lhs IHl rhs IHr | loc lhs IHl rhs IHr
    | loc directCallee callee IHc args Hargs ];
    intros current; cbn [Value_TraverseStmt];
    try apply writes_go_on; try apply IH.
  - apply writes_children; exact Hbody.
  - apply writes_seq; [apply writes_VisitVarDecl |].
    apply writes_optional; exact Hinit.
  - apply writes_TraverseIfStmt; [exact IHt | exact Helse].
  - apply writes_seq; [apply IHc | apply IHb].
  - apply writes_optional; exact Hvalue.
  - apply writes_seq; [apply writes_VisitBinaryOperator |].
    apply writes_seq; [apply IHl | apply IHr].
  - apply writes_seq; [apply writes_VisitArraySubscriptExpr |].
    apply writes_seq; [apply IHl | apply IHr].
  - apply writes_TraverseCallExpr.
Qed.

Lemma writes_entries_of (P : Entry -> Prop) (v : Visit CodeBlock) :
  writes P v ->
  Forall P (entries_of v) /\
  forall Target, v Target = (true, add_actions Target (entries_of v)).
Proof.
  intros [new [F E]].
  assert (Hnew : entries_of v = new) by (unfold entries_of; rewrite E; reflexivity).
  rewrite Hnew; split; assumption.
Qed.

Lemma Value_TraverseStmt_emitted (current : Condition) (s : Stmt) (Target : CodeBlock) :
  Value_TraverseStmt current s Target = (true, add_actions Target (emitted current s)).
Proof.
  apply (writes_entries_of (writes_Value_TraverseStmt s current)).
Qed.

Lemma emitted_sound (current : Condition) (s : Stmt) :
  Forall (sound_entry current) (emitted current s).
Proof.
  apply (writes_entries_of (writes_Value_TraverseStmt s current)).
Qed.

Lemma entries_of_writer (v : Visit CodeBlock) (new : list Entry) :
  (forall Target, v Target = (true, add_actions Target new)) -> entries_of v = new.
Proof.
  intros E; unfold entries_of; rewrite E; reflexivity.
Qed.

Lemma Value_TraverseStmts_emitted (current : Condition) (l : list Stmt) (Target : CodeBlock) :
  Value_TraverseStmts current l Target =
  (true, add_actions Target (flat_map (emitted current) l)).
Proof.
  revert Target; induction l as [| c r IH]; intros Target.
  - cbn; rewrite add_actions_nil; reflexivity.
  - cbn [Value_TraverseStmts flat_map]. unfold andThen.
    rewrite Value_TraverseStmt_emitted, IH, add_actions_app. reflexivity.
Qed.

End WriterProperties.

(** ** What each kind of statement contributes *)

Section EmittedEntries.

Context {ops : ConditionOps}.

Lemma writer_seq (a b : Visit CodeBlock) (na nb : list Entry) :
  (forall Target, a Target = (true, add_actions Target na)) ->
  (forall Target, b Target = (true, add_actions Target nb)) ->
  forall Target, (a ;;; b) Target = (true, add_actions Target (na ++ nb)).
Proof.
  intros Ea Eb Target; unfold andThen; rewrite Ea, Eb, add_actions_app; reflexivity.
Qed.

Lemma writer_entries_of (P : Entry -> Prop) (v : Visit CodeBlock) :
  writes P v -> forall Target, v Target = (true, add_actions Target (entries_of v)).
Proof. intros H; apply (writes_entries_of H). Qed.

Lemma writer_optional (current : Condition) (o : option Stmt) (Target : CodeBlock) :
  match o with Some e => Value_TraverseStmt current e | None => go_on end Target =
  (true, add_actions Target (emitted_optional current o)).
Proof.
  destruct o as [e |]; [apply Value_TraverseStmt_emitted |].
  cbn; rewrite add_actions_nil; reflexivity.
Qed.

(** The entries of a statement, from those of its parts. *)
Lemma emitted_equation (current : Condition) (s : Stmt) :
  emitted current s =
  match s with
  | CompoundStmt body => flat_map (emitted current) body
  | DeclStmt loc name type init =>
      entries_of (VisitVarDecl current (mkVarDecl loc name type false init)) ++
      emitted_optional current init
  | IfStmt cond then_ else_ =>
      match parse_guard cond with
      | Throw _ => []
      | Ret (condition, negated) =>
          (if IsAlwaysTrue negated then []
           else emitted (Condition_And current condition) then_) ++
          (if IsAlwaysTrue condition then []
           else emitted_optional (Condition_And current negated) else_)
      end
  | WhileStmt cond body => emitted current cond ++ emitted current body
  | ReturnStmt value => emitted_optional current value
  | IntegerLiteral _ | StringLiteral _ | DeclRefExpr _ => []
  | ImplicitCastExpr sub | ParenExpr sub | UnaryOperator _ sub => emitted current sub
  | BinaryOperator loc opc lhs rhs =>
      entries_of (VisitBinaryOperator current loc opc lhs rhs) ++
      emitted current lhs ++ emitted current rhs
  | ArraySubscriptExpr loc lhs rhs =>
      entries_of (VisitArraySubscriptExpr current loc lhs rhs) ++
      emitted current lhs ++ emitted current rhs
  | CallExpr loc directCallee _ args =>
      entries_of (TraverseCallExpr current loc directCallee args)
  end.
Proof.
  destruct s; try reflexivity; apply entries_of_writer; intros Target.
  - rewrite Value_TraverseStmt_compound. apply Value_TraverseStmts_emitted.
  - cbn [Value_TraverseStmt]. apply writer_seq.
    + apply (writer_entries_of (writes_VisitVarDecl _ _)).
    + intros T; apply writer_optional.
  - cbn [Value_TraverseStmt]. unfold TraverseIfStmt.
    destruct (parse_guard s1) as [[condition negated] | what];
      [| rewrite add_actions_nil; reflexivity].
    rewrite <- add_actions_app. f_equal.
    destruct (IsAlwaysTrue negated); cbn [negb];
      [rewrite add_actions_nil | rewrite Value_TraverseStmt_emitted; cbn [snd]];
      (destruct (IsAlwaysTrue condition); cbn [negb];
       [rewrite add_actions_nil; reflexivity |]);
      (destruct else_ as [e |];
       [rewrite Value_TraverseStmt_emitted; reflexivity
       | cbn; rewrite add_actions_nil; reflexivity]).
  - cbn [Value_TraverseStmt].
    apply writer_seq; intros T; apply Value_TraverseStmt_emitted.
  - cbn [Value_TraverseStmt]. apply writer_optional.
  - cbn [Value_TraverseStmt]. apply writer_seq.
    + apply (writer_entries_of (writes_VisitBinaryOperator _ _ _ _ _)).
    + apply writer_seq; intros T; apply Value_TraverseStmt_emitted.
  - cbn [Value_TraverseStmt]. apply writer_seq.
    + apply (writer_entries_of (writes_VisitArraySubscriptExpr _ _ _ _)).
    + apply writer_seq; intros T; apply Value_TraverseStmt_emitted.
Qed.

(** X4: the traversal of a statement never aborts; it leaves the name,
    the location, the parameters and the earlier entries of the block as
    they are, and the entries it appends do not depend on what the block
    holds. *)
Theorem traversal_appends_only (current : Condition) (s : Stmt) (Target : CodeBlock) :
  Value_TraverseStmt current s Target =
  (true, {| BlockName := BlockName Target; BlockLocation := BlockLocation Target;
            Parameters := Parameters Target;
            Actions := Actions Target ++ emitted current s |}).
Proof. apply Value_TraverseStmt_emitted. Qed.

(** X5: every state the traversal records is one its call sites build: a
    declaration carries [Unknown] or a buffer of non-negative size, an
    assignment a copy of a variable, a subscript access the value of an
    integer literal, and a call, for each argument, [Unknown] or the
    value of an integer literal. *)
Theorem recorded_states_well_formed (current : Condition) (s : Stmt) :
  Forall (fun e => well_formed_action (fst e)) (emitted current s).
Proof.
  eapply Forall_impl; [| apply emitted_sound].
  intros e [_ Hw]; exact Hw.
Qed.

(** X6: every entry the traversal of a statement appends is tagged with
    the current condition or with a condition built from it by
    conjoining guards. *)
Theorem recorded_conditions_extend_current (current : Condition) (s : Stmt) :
  Forall (tagged_from current) (emitted current s).
Proof.
  eapply Forall_impl; [| apply emitted_sound].
  intros e [Ht _]; exact Ht.
Qed.

(** X7: the entries of a compound statement are those of its statements,
    one statement after the other in textual order; splitting the body
    in two splits the entries. *)
Theorem compound_entries_in_order (current : Condition) (before after : list Stmt) :
  emitted current (CompoundStmt (before ++ after)) =
    emitted current (CompoundStmt before) ++ emitted current (CompoundStmt after) /\
  emitted current (CompoundStmt (before ++ after)) =
    flat_map (emitted current) before ++ flat_map (emitted current) after.
Proof.
  rewrite !(emitted_equation current (CompoundStmt _)), flat_map_app.
  split; reflexivity.
Qed.

End EmittedEntries.

(** ** How many entries, and under which condition *)

Section EntryCounts.

Context {ops : ConditionOps}.

Local Open Scope nat_scope.

Let count (l : list Stmt) : nat := List.length (filter recordable l).

Lemma count_app (a b : list Stmt) : count (a ++ b) = count a + count b.
Proof. unfold count; rewrite filter_app, length_app; reflexivity. Qed.

Lemma entries_of_VisitVarDecl_le (current : Condition) (var : VarDecl) :
  List.length (entries_of (VisitVarDecl current var)) <= 1.
Proof.
  unfold entries_of, VisitVarDecl. destruct (IsParm var); simpl; lia.
Qed.

Lemma entries_of_VisitBinaryOperator_le (current : Condition) (loc : SourceLocation)
    (opc : BinaryOperatorKind) (lhs rhs : Stmt) :
  List.length (entries_of (VisitBinaryOperator current loc opc lhs rhs)) <=
  count [BinaryOperator loc opc lhs rhs].
Proof.
  unfold entries_of, VisitBinaryOperator, count.
  destruct opc; simpl; try lia.
  destruct (find_var lhs), (find_var rhs); simpl; lia.
Qed.

Lemma entries_of_VisitArraySubscriptExpr_le (current : Condition) (loc : SourceLocation)
    (lhs idx : Stmt) :
  List.length (entries_of (VisitArraySubscriptExpr current loc lhs idx)) <= 1.
Proof.
  unfold entries_of, VisitArraySubscriptExpr.
  destruct (find_var lhs); [destruct idx |]; simpl; lia.
Qed.

Lemma entries_of_TraverseCallExpr_le (current : Condition) (loc : SourceLocation)
    (directCallee : option string) (callee : Stmt) (args : list Stmt) :
  List.length (entries_of (TraverseCallExpr current loc directCallee args)) <=
  count [CallExpr loc directCallee callee args].
Proof.
  unfold entries_of, TraverseCallExpr, count. destruct directCallee; simpl; lia.
Qed.

Let bounded (s : Stmt) : Prop :=
  forall current, List.length (emitted current s) <= count (preorder s).

Lemma bounded_children (current : Condition) (l : list Stmt) :
  list_all bounded l ->
  List.length (flat_map (emitted current) l) <= count (flat_map preorder l).
Proof.
  induction 1 as [| c Hc r Hr IH]; [apply Nat.le_refl |].
  cbn [flat_map]. rewrite length_app, count_app.
  specialize (Hc current). lia.
Qed.

Lemma bounded_optional (current : Condition) (o : option Stmt) :
  option_all bounded o ->
  List.length (emitted_optional current o) <=
  count (match o with Some e => preorder e | None => [] end).
Proof.
  intros [e He |]; [apply He | apply Nat.le_refl].
Qed.

Lemma count_cons (n : Stmt) (l : list Stmt) : count (n :: l) = count [n] + count l.
Proof. apply (count_app [n] l). Qed.

Lemma emitted_bounded (s : Stmt) : bounded s.
Proof.
  induction s as
    [ body Hbody | loc name type init Hinit | cond IHc then_ IHt else_ Helse
    | cond IHc body IHb | value Hvalue | value | bytes | decl | sub IH | sub IH
    | opc sub IH | loc opc lhs IHl rhs IHr | loc lhs IHl rhs IHr
    | loc directCallee callee IHc args Hargs ];
    intros current; rewrite emitted_equation; cbn [preorder];
    rewrite count_cons, ?count_app, ?length_app.
  - pose proof (bounded_children current Hbody). lia.
  - pose proof (bounded_optional current Hinit).
    pose proof (entries_of_VisitVarDecl_le current (mkVarDecl loc name type false init)).
    change (count [DeclStmt loc name type init]) with 1. lia.
  - destruct (parse_guard cond) as [[condition negated] | what]; [| cbn; lia].
    rewrite length_app.
    assert (H1 : List.length (if IsAlwaysTrue negated then []
                              else emitted (Condition_And current condition) then_)
                 <= count (preorder then_)).
    { destruct (IsAlwaysTrue negated); [cbn; lia | apply IHt]. }
    assert (H2 : List.length (if IsAlwaysTrue condition then []
                              else emitted_optional (Condition_And current negated) else_)
                 <= count (match else_ with Some e => preorder e | None => [] end)).
    { destruct (IsAlwaysTrue condition); [cbn; lia | apply bounded_optional; exact Helse]. }
    lia.
  - specialize (IHc current); specialize (IHb current). lia.
  - pose proof (bounded_optional current Hvalue). lia.
  - cbn; lia.
  - cbn; lia.
  - cbn; lia.
  - specialize (IH current). lia.
  - specialize (IH current). lia.
  - specialize (IH current). lia.
  - pose proof (entries_of_VisitBinaryOperator_le current loc opc lhs rhs).
    specialize (IHl current); specialize (IHr current). lia.
  - pose proof (entries_of_VisitArraySubscriptExpr_le current loc lhs rhs).
    specialize (IHl current); specialize (IHr current).
    change (count [ArraySubscriptExpr loc lhs rhs]) with 1. lia.
  - pose proof (entries_of_TraverseCallExpr_le current loc directCallee callee args). lia.
Qed.

(** X8: the traversal appends at most one entry for each declaration,
    assignment, subscript expression and direct call of the statement,
    and nothing for any other node. *)
Theorem at_most_one_entry_per_node (current : Condition) (s : Stmt) :
  List.length (emitted current s) <= List.length (filter recordable (preorder s)).
Proof. apply emitted_bounded. Qed.

Lemma exactly_tagged_pieces (current : Condition) :
  (forall var, exactly_tagged current (entries_of (VisitVarDecl current var))) /\
  (forall loc opc lhs rhs,
     exactly_tagged current (entries_of (VisitBinaryOperator current loc opc lhs rhs))) /\
  (forall loc lhs idx,
     exactly_tagged current (entries_of (VisitArraySubscriptExpr current loc lhs idx))) /\
  (forall loc directCallee args,
     exactly_tagged current (entries_of (TraverseCallExpr current loc directCallee args))).
Proof.
  unfold exactly_tagged, entries_of. repeat split.
  - intros var. unfold VisitVarDecl. destruct (IsParm var); simpl; repeat constructor.
  - intros loc opc lhs rhs. unfold VisitBinaryOperator.
    destruct opc; simpl; try constructor.
    destruct (find_var lhs), (find_var rhs); simpl; repeat constructor.
  - intros loc lhs idx. unfold VisitArraySubscriptExpr.
    destruct (find_var lhs); [destruct idx |]; simpl; repeat constructor.
  - intros loc directCallee args. unfold TraverseCallExpr.
    destruct directCallee; simpl; repeat constructor.
Qed.

Let no_if (l : list Stmt) : Prop := forallb (fun n => negb (is_IfStmt n)) l = true.

Let plain (s : Stmt) : Prop :=
  forall current, no_if (preorder s) -> exactly_tagged current (emitted current s).

Lemma no_if_app (a b : list Stmt) : no_if (a ++ b) <-> no_if a /\ no_if b.
Proof. unfold no_if; rewrite forallb_app, andb_true_iff; reflexivity. Qed.

Lemma no_if_cons (n : Stmt) (l : list Stmt) : no_if (n :: l) -> no_if l.
Proof. unfold no_if; cbn [forallb]; rewrite andb_true_iff; tauto. Qed.

Lemma plain_children (current : Condition) (l : list Stmt) :
  list_all plain l -> no_if (flat_map preorder l) ->
  exactly_tagged current (flat_map (emitted current) l).
Proof.
  induction 1 as [| c Hc r Hr IH]; intros Hno; [constructor |].
  cbn [flat_map] in *. apply no_if_app in Hno as [Hc' Hr'].
  apply Forall_app; split; [apply Hc; exact Hc' | apply IH; exact Hr'].
Qed.

Lemma plain_optional (current : Condition) (o : option Stmt) :
  option_all plain o -> no_if (match o with Some e => preorder e | None => [] end) ->
  exactly_tagged current (emitted_optional current o).
Proof.
  intros [e He |] Hno; [apply He; exact Hno | constructor].
Qed.

Lemma emitted_plain (s : Stmt) : plain s.
Proof.
  induction s as
    [ body Hbody | loc name type init Hinit | cond IHc then_ IHt else_ Helse
    | cond IHc body IHb | value Hvalue | value | bytes | decl | sub IH | sub IH
    | opc sub IH | loc opc lhs IHl rhs IHr | loc lhs IHl rhs IHr
    | loc directCallee callee IHc args Hargs ];
    intros current Hno;
    try discriminate Hno;
    rewrite emitted_equation;
    destruct (exactly_tagged_pieces current) as [Hvar [Hbin [Hsub Hcall]]];
    cbn [preorder] in Hno; apply no_if_cons in Hno;
    repeat match goal with
           | H : no_if (_ ++ _) |- _ => apply no_if_app in H; destruct H
           end;
    unfold exactly_tagged in *;
    repeat match goal with
           | |- Forall _ (_ ++ _) => apply Forall_app; split
           end.
  - apply plain_children; assumption.
  - apply Hvar.
  - apply plain_optional; assumption.
  - apply IHc; assumption.
  - apply IHb; assumption.
  - apply plain_optional; assumption.
  - constructor.
  - constructor.
  - constructor.
  - apply IH; assumption.
  - apply IH; assumption.
  - apply IH; assumption.
  - apply Hbin.
  - apply IHl; assumption.
  - apply IHr; assumption.
  - apply Hsub.
  - apply IHl; assumption.
  - apply IHr; assumption.
  - apply Hcall.
Qed.

(** X9: outside conditional statements every entry carries exactly the
    current condition: the entries of a statement that holds no [if] are
    all tagged with the condition of the visitor that traverses it. *)
Theorem plain_statement_tagged_with_current (current : Condition) (s : Stmt)
    (Hplain : if_free s) :
  Forall (fun e => action_condition (fst e) = current) (emitted current s).
Proof. apply (emitted_plain s current Hplain). Qed.

End EntryCounts.

(** ** What the variable finder returns *)

Lemma last_variable_found (l : list Stmt) (acc : option VariableIdentifier)
    (v : VariableIdentifier) :
  last_variable l acc = Some v ->
  acc = Some v \/ In (DeclRefExpr (RefVarDecl (Name v))) l.
Proof.
  revert acc; induction l as [| n r IH]; intros acc H; [left; exact H |].
  destruct n; cbn [last_variable] in H;
    try (destruct (IH _ H) as [Ha | Hin]; [left; exact Ha | right; right; exact Hin]).
  destruct decl as [name | name].
  - destruct (IH _ H) as [Ha | Hin]; [| right; right; exact Hin].
    injection Ha as <-. right; left; reflexivity.
  - destruct (IH _ H) as [Ha | Hin]; [left; exact Ha | right; right; exact Hin].
Qed.

Lemma last_variable_some (l : list Stmt) (acc : option VariableIdentifier) :
  acc <> None \/ (exists name, In (DeclRefExpr (RefVarDecl name)) l) ->
  last_variable l acc <> None.
Proof.
  revert acc; induction l as [| n r IH]; intros acc H.
  - destruct H as [Ha | [name []]]; exact Ha.
  - destruct n; try destruct decl; cbn [last_variable];
      try (apply IH; left; discriminate);
      (destruct H as [Ha | [ref [Hd | Hin]]];
       [ apply IH; left; exact Ha
       | discriminate Hd
       | apply IH; right; exists ref; exact Hin ]).
Qed.

Lemma last_variable_none (l : list Stmt) (acc : option VariableIdentifier) :
  last_variable l acc = None <->
  acc = None /\ forall name, ~ In (DeclRefExpr (RefVarDecl name)) l.
Proof.
  split.
  - intros H. split.
    + destruct acc as [v |]; [| reflexivity].
      exfalso; apply (@last_variable_some l (Some v)); [left; discriminate | exact H].
    + intros name Hin.
      apply (@last_variable_some l acc); [right; exists name; exact Hin | exact H].
  - intros [Ha Hn]. destruct (last_variable l acc) as [v |] eqn:E; [| reflexivity].
    destruct (last_variable_found _ _ E) as [Hd | Hin]; [congruence |].
    exfalso; exact (Hn _ Hin).
Qed.

(** X10: [VariableRefOrArrayVisitor] finds a variable exactly when the
    expression references one before its first subscript expression in
    pre-order, and the variable it finds is one of those referenced
    there. *)
Theorem find_var_sound_and_complete (e : Stmt) :
  (forall v, find_var e = Some v ->
             In (DeclRefExpr (RefVarDecl (Name v))) (before_subscript (preorder e))) /\
  (find_var e = None <->
   forall name, ~ In (DeclRefExpr (RefVarDecl name)) (before_subscript (preorder e))).
Proof.
  rewrite find_var_candidate. unfold whole_variable_candidate. split.
  - intros v H. destruct (last_variable_found _ _ H) as [Hd | Hin];
      [discriminate | exact Hin].
  - rewrite last_variable_none. tauto.
Qed.

Lemma subscript_rooted_no_candidate (e : Stmt) :
  subscript_rooted e = true ->
  forall acc, last_variable (before_subscript (preorder e)) acc = acc.
Proof.
  induction e; cbn [subscript_rooted]; try discriminate; intros H acc.
  - cbn. apply IHe; exact H.
  - cbn. apply IHe; exact H.
  - reflexivity.
Qed.

(** X11: an expression that is a subscript expression, under any implicit
    conversions and parentheses, never stands for a variable: an
    assignment to it or from it is not recorded, and a subscript
    expression whose base it is records no access. *)
Theorem subscript_is_never_a_whole_variable {ops : ConditionOps} (e : Stmt)
    (Hroot : subscript_rooted e = true) :
  find_var e = None /\
  (forall current loc other Target,
     VisitBinaryOperator current loc BO_Assign e other Target = (true, Target) /\
     VisitBinaryOperator current loc BO_Assign other e Target = (true, Target) /\
     VisitArraySubscriptExpr current loc e other Target = (true, Target)).
Proof.
  assert (Hnone : find_var e = None).
  { rewrite find_var_candidate. apply (subscript_rooted_no_candidate e Hroot). }
  split; [exact Hnone |].
  intros current loc other Target.
  unfold VisitBinaryOperator, VisitArraySubscriptExpr. rewrite Hnone.
  repeat split. destruct (find_var other); reflexivity.
Qed.

Lemma subscript_is_never_a_whole_variable_witness :
  find_var (ImplicitCastExpr (ArraySubscriptExpr 0 (rvalue "b") (int_literal 0))) = None.
Proof.
  apply (@subscript_is_never_a_whole_variable SampleOps
           (ImplicitCastExpr (ArraySubscriptExpr 0 (rvalue "b") (int_literal 0)))).
  reflexivity.
Defined.

(** ** The block of a function *)




Lemma plain_statement_tagged_with_current_witness :
  Forall (fun e => action_condition (fst e) = [GConstant true])
    (emitted (ops := SampleOps) [GConstant true] then_arm).
Proof.
  apply (@plain_statement_tagged_with_current SampleOps [GConstant true] then_arm).
  reflexivity.
Defined.

Lemma find_var_sound_and_complete_witness :
  In (DeclRefExpr (RefVarDecl "q"))
    (before_subscript
       (preorder (ParenExpr (BinaryOperator 0 BO_Add (rvalue "p") (rvalue "q"))))).
Proof.
  apply (proj1 (find_var_sound_and_complete
                  (ParenExpr (BinaryOperator 0 BO_Add (rvalue "p") (rvalue "q"))))
           (VariableIdentifier_of "q")).
  reflexivity.
Defined.

(** ** Both branches of a conditional *)

(** X13: when the guard of an [if] is modelled and neither its condition
    nor the negated condition is always true, the statement contributes
    the entries of the then branch under the conjunction with the
    condition, followed by those of the else branch under the conjunction
    with the negated condition; what the else branch contributes does not
    depend on the then branch. *)
Theorem live_branches_then_before_else {ops : ConditionOps} (current : Condition)
    (cond then_ : Stmt) (else_ : option Stmt) (condition negated : Condition)
    (Hguard : parse_guard cond = Ret (condition, negated))
    (Hthen : IsAlwaysTrue negated = false)
    (Helse : IsAlwaysTrue condition = false) :
  emitted current (IfStmt cond then_ else_) =
    emitted (Condition_And current condition) then_ ++
    emitted_optional (Condition_And current negated) else_ /\
  Forall (tagged_from (Condition_And current condition))
    (emitted (Condition_And current condition) then_) /\
  Forall (tagged_from (Condition_And current negated))
    (emitted_optional (Condition_And current negated) else_).
Proof.
  split.
  - rewrite emitted_equation, Hguard, Hthen, Helse. reflexivity.
  - split.
    + eapply Forall_impl; [| apply emitted_sound]. intros e [Ht _]; exact Ht.
    + destruct else_ as [e |]; [| constructor].
      eapply Forall_impl; [| apply emitted_sound]. intros a [Ht _]; exact Ht.
Qed.

Lemma live_branches_then_before_else_witness :
  emitted (ops := SampleOps) []
    (IfStmt (rvalue "x") then_arm (Some else_arm)) =
  emitted (ops := SampleOps) [GVariable "x" true] then_arm ++
  emitted (ops := SampleOps) [GVariable "x" false] else_arm.
Proof.
  apply (@live_branches_then_before_else SampleOps [] (rvalue "x") then_arm
           (Some else_arm) [GVariable "x" true] [GVariable "x" false]);
    reflexivity.
Defined.
